(** * binpacking: a CSV splitter balancing declared row sizes

    A shallow embedding of [main.go]: the metadata scan ([scan]), the greedy
    partitioner ([binpack]) and the concurrent write pass ([write]), with the
    command [splitCmd] that chains them.

    Conventions of the embedding
    - Go's [int] and [int64] are [Z]; the only arithmetic that can leave the
      64-bit range is [TotalSize += meta.Size], whose wrap-around is written
      out with [Int64.wrap].  Line counters are bounded by the number of records
      read and are left unwrapped.
    - A CSV source is the list of records its [csv.Reader] returns before the
      first error ([io.EOF] included): both loops of the program leave on any
      error.  A record is a list of fields.
    - [map[int]struct{}] is a [gset Z], [map[int]int] a [gmap Z Z].
    - Standard output is a list of messages, threaded with the aborts
      ([panic], [os.Exit]) through the monad [M].  Durations printed by the
      program are left out of the messages.
    - [sort.Slice] and [strconv.ParseInt] belong to Go's library: the first
      is a parameter constrained by its documented contract, the second is
      written out for base 10 and 64 bits.
    - Files open and writes succeed, and no output file is the input file. *)

From Stdlib Require Import ZArith String Ascii Lia.
From stdpp Require Import base tactics option list numbers gmap sets sorting pretty.

Local Open Scope string_scope.
Local Open Scope list_scope.
Local Open Scope Z_scope.

(** ** Data model *)

Record LineMeta := mkLineMeta { LineNumber : Z; Size : Z }.

Record FileBucket := mkFileBucket { TotalSize : Z; LineNums : gset Z }.

Definition record := list string.

(** The records a [csv.Reader] over the input file yields, header first. *)
Definition Source := list record.

#[global] Instance LineMeta_eq_dec : EqDecision LineMeta.
Proof. solve_decision. Defined.

#[global] Instance FileBucket_eq_dec : EqDecision FileBucket.
Proof. solve_decision. Defined.

(** ** 64-bit arithmetic *)

Module Int64.

Definition min : Z := - 2 ^ 63.
Definition max : Z := 2 ^ 63 - 1.
Definition maxUint : Z := 2 ^ 64 - 1.

(** Two's complement reduction of an integer to the [int64] range. *)
Definition wrap (z : Z) : Z := (z + 2 ^ 63) `mod` 2 ^ 64 - 2 ^ 63.

Definition in_range (z : Z) : Prop := min ≤ z ≤ max.

End Int64.

(** ** strconv.ParseInt(s, 10, 64) *)

Module strconv.

Inductive NumError := ErrSyntax | ErrRange.

Definition digit (c : ascii) : option Z :=
  let n := Z.of_N (N_of_ascii c) in
  if (48 <=? n) && (n <=? 57) then Some (n - 48) else None.

(** The digit loop of [ParseUint] in base 10: a byte that is no digit is a
    syntax error with value 0; leaving the [uint64] range is a range error
    with the largest value, returned at once. *)
Fixpoint ParseUint_loop (s : string) (n : Z) : Z * option NumError :=
  match s with
  | EmptyString => (n, None)
  | String c s' =>
      match digit c with
      | None => (0, Some ErrSyntax)
      | Some d =>
          if Int64.maxUint `div` 10 + 1 <=? n then (Int64.maxUint, Some ErrRange)
          else
            let n1 := n * 10 + d in
            if Int64.maxUint <? n1 then (Int64.maxUint, Some ErrRange)
            else ParseUint_loop s' n1
      end
  end.

Definition ParseUint (s : string) : Z * option NumError :=
  match s with
  | EmptyString => (0, Some ErrSyntax)
  | _ => ParseUint_loop s 0
  end.

Definition ParseInt (s : string) : Z * option NumError :=
  match s with
  | EmptyString => (0, Some ErrSyntax)
  | String c s' =>
      let neg := Ascii.eqb c "-" in
      let body := if Ascii.eqb c "+" || neg then s' else s in
      match ParseUint body with
      | (_, Some ErrSyntax) => (0, Some ErrSyntax)
      | (un, _) =>
          if negb neg && (2 ^ 63 <=? un) then (2 ^ 63 - 1, Some ErrRange)
          else if neg && (2 ^ 63 <? un) then (- 2 ^ 63, Some ErrRange)
          else (if neg then Int64.wrap (- Int64.wrap un) else Int64.wrap un, None)
      end
  end.

End strconv.

(** ** Standard output and aborts *)

Inductive Msg :=
  | MetaScanStart
  | MetaScanLines (line : Z)
  | MetaScanFinished (n : nat)
  | BinpackSorting
  | BinpackFinished
  | BucketSummary (index : Z) (total : Z) (lines : nat)
  | WriteStart
  | WarnLineNotFound (lineNum : Z)
  | ErrBucketOutOfRange (bucketIndex lineNum : Z)
  | WriteLines (lineNum : Z)
  | WriteDone
  | SplitDone (bucketsN : Z).

Inductive Abort :=
  | PanicErr
  | PanicIndexOutOfRange (index len : nat)
  | PanicMakeSliceLen
  | OsExit (code : Z).

Inductive Result (A : Type) :=
  | Ok (a : A)
  | Aborted (e : Abort).
Arguments Ok {A} a.
Arguments Aborted {A} e.

(** What a run leaves outside the process: the lines printed and the names
    of the files made with [os.Create], both in order. *)
Record World := mkWorld { stdout : list Msg; created : list string }.

(** A computation changes the world and returns or aborts. *)
Definition M (A : Type) : Type := World → World * Result A.

Definition ret {A} (a : A) : M A := λ w, (w, Ok a).
Definition bind {A B} (m : M A) (k : A → M B) : M B :=
  λ w, match m w with
       | (w', Ok a) => k a w'
       | (w', Aborted e) => (w', Aborted e)
       end.
Definition print (m : Msg) : M unit :=
  λ w, (mkWorld (stdout w ++ [m]) (created w), Ok tt).
Definition print_all (ms : list Msg) : M unit :=
  λ w, (mkWorld (stdout w ++ ms) (created w), Ok tt).
Definition os_Create (name : string) : M unit :=
  λ w, (mkWorld (stdout w) (created w ++ [name]), Ok tt).
Definition abort {A} (e : Abort) : M A := λ w, (w, Aborted e).
Definition lift {A} (r : Result A) : M A := λ w, (w, r).
Definition run {A} (m : M A) : World * Result A := m (mkWorld [] []).

Notation "'let*' x := m 'in' k" := (bind m (λ x, k))
  (at level 10, x name, m at level 100, k at level 200, only parsing).
Notation "m ;;; k" := (bind m (λ _, k))
  (at level 100, k at level 200, right associativity, only parsing).

Definition when (b : bool) (m : M unit) : M unit := if b then m else ret tt.

(** ** scan *)

(** The loop of [scan] over the records after the header. *)
Fixpoint scan_loop (rs : list record) (line : Z) (metas : list LineMeta)
  : M (list LineMeta) :=
  match rs with
  | [] => ret metas
  | rec :: rs' =>
      match rec !! 2%nat with
      | None => abort (PanicIndexOutOfRange 2 (length rec))
      | Some field =>
          let size := fst (strconv.ParseInt field) in
          let metas := metas ++ [mkLineMeta line size] in
          let line := line + 1 in
          when (line `mod` 1000000 =? 0) (print (MetaScanLines line)) ;;;
          scan_loop rs' line metas
      end
  end.

Definition scan (src : Source) : M (list LineMeta) :=
  print MetaScanStart ;;;
  match src with
  | [] => abort PanicErr
  | _ :: rs =>
      let* metas := scan_loop rs 1 [] in
      print (MetaScanFinished (length metas)) ;;;
      ret metas
  end.

(** ** sort.Slice *)

(** The comparator [binpack] hands to [sort.Slice]:
    [metas[i].Size > metas[j].Size]. *)
Definition less (a b : LineMeta) : bool := Size b <? Size a.

(** What the documentation of [sort.Slice] promises of the slice it leaves:
    the same elements, no element followed by one that [less] puts before
    it.  Nothing is promised on the order of elements [less] does not
    separate ("the sort is not guaranteed to be stable"). *)
Definition SliceContract (sort_Slice : list LineMeta → list LineMeta) : Prop :=
  ∀ l, sort_Slice l ≡ₚ l ∧ StronglySorted (λ a b, less b a = false) (sort_Slice l).

(** [insertionSort_func] of Go's package sort, the procedure [sort.Slice]
    runs on short slices.  The prefix already sorted is kept reversed, so
    that its head is [data[j-1]]: the inner loop swaps the new element with
    its left neighbour as long as [less] holds. *)
Section insertionSort.
Context {A : Type} (lessA : A → A → bool).

Fixpoint sift (x : A) (rprefix : list A) : list A :=
  match rprefix with
  | [] => [x]
  | y :: r => if lessA x y then y :: sift x r else x :: y :: r
  end.

Definition insertionSort_func (data : list A) : list A :=
  rev (foldl (λ rprefix x, sift x rprefix) [] data).
End insertionSort.

(** ** binpack *)

(** The search of the lightest bucket:
    [for i := 1; i < bucketsN; i++ { if buckets[i].TotalSize <
    buckets[minIndex].TotalSize { minIndex = i } }], with [n] iterations
    left. *)
Fixpoint minIndex_loop (buckets : list FileBucket) (i n minIndex : nat)
  : Result nat :=
  match n with
  | O => Ok minIndex
  | S n' =>
      match buckets !! i, buckets !! minIndex with
      | Some bi, Some bm =>
          minIndex_loop buckets (S i) n'
            (if TotalSize bi <? TotalSize bm then i else minIndex)
      | None, _ => Aborted (PanicIndexOutOfRange i (length buckets))
      | _, None => Aborted (PanicIndexOutOfRange minIndex (length buckets))
      end
  end.

(** [buckets[minIndex].TotalSize += meta.Size;
     buckets[minIndex].LineNums[meta.LineNumber] = struct{}{}] *)
Definition assign (meta : LineMeta) (b : FileBucket) : FileBucket :=
  mkFileBucket (Int64.wrap (TotalSize b + Size meta))
               ({[LineNumber meta]} ∪ LineNums b).

Fixpoint binpack_loop (bucketsN : nat) (metas : list LineMeta)
    (buckets : list FileBucket) : Result (list FileBucket) :=
  match metas with
  | [] => Ok buckets
  | meta :: metas' =>
      match minIndex_loop buckets 1 (bucketsN - 1) 0 with
      | Aborted e => Aborted e
      | Ok minIndex =>
          match buckets !! minIndex with
          | None => Aborted (PanicIndexOutOfRange minIndex (length buckets))
          | Some b =>
              binpack_loop bucketsN metas' (<[minIndex := assign meta b]> buckets)
          end
      end
  end.

Definition summary (buckets : list FileBucket) : list Msg :=
  imap (λ i b, BucketSummary (Z.of_nat i + 1) (TotalSize b) (size (LineNums b)))
       buckets.

Section binpack.
Variable sort_Slice : list LineMeta → list LineMeta.

Definition binpack (metas : list LineMeta) (bucketsN : Z)
  : M (list FileBucket) :=
  print BinpackSorting ;;;
  let metas := sort_Slice metas in
  if bucketsN <? 0 then abort PanicMakeSliceLen else
  let buckets := replicate (Z.to_nat bucketsN) (mkFileBucket 0 ∅) in
  let* buckets := lift (binpack_loop (Z.to_nat bucketsN) metas buckets) in
  print BinpackFinished ;;;
  print_all (summary buckets) ;;;
  ret buckets.
End binpack.


(** ** write *)

(** The index from line number to bucket:
    [for i, bucket := range buckets { for lineNum := range bucket.LineNums
    { lineToBucket[lineNum] = i } }].  Go does not fix the order in which
    [range] visits the keys of a map: [orders] gives, bucket by bucket, the
    order in which the line numbers are visited. *)
Fixpoint lineToBucket_loop (i : Z) (orders : list (list Z))
    (lineToBucket : gmap Z Z) : gmap Z Z :=
  match orders with
  | [] => lineToBucket
  | order :: orders' =>
      lineToBucket_loop (i + 1) orders'
        (foldl (λ m lineNum, <[lineNum := i]> m) lineToBucket order)
  end.

(** [order] is one of the orders in which [range] may visit [b.LineNums]. *)
Definition range_order (order : list Z) (b : FileBucket) : Prop :=
  order ≡ₚ elements (LineNums b).

Definition lineToBucket (buckets : list FileBucket) : gmap Z Z :=
  lineToBucket_loop 0 ((λ b, elements (LineNums b)) <$> buckets) ∅.

(** What the read loop does with the record it looks up under [lineNum]. *)
Inductive Routed :=
  | Send (bucketIndex : nat)
  | Skip
  | Fatal (bucketIndex : Z).

#[global] Instance Routed_eq_dec : EqDecision Routed.
Proof. solve_decision. Defined.

Definition route (lineToBucket : gmap Z Z) (channelsN : nat) (lineNum : Z)
  : Routed :=
  match lineToBucket !! lineNum with
  | None => Skip
  | Some bucketIndex =>
      if (0 <=? bucketIndex) && (bucketIndex <? Z.of_nat channelsN)
      then Send (Z.to_nat bucketIndex)
      else Fatal bucketIndex
  end.

(** [w.Write(record)] on one writer, and on the writer of bucket [i]. *)
Definition Write (rec : record) (w : list record) : list record := w ++ [rec].
Definition WriteTo (i : nat) (rec : record) (writers : list (list record))
  : list (list record) := alter (Write rec) i writers.

(** The read loop of [write], each record handed to its writer as soon as it
    is sent.  [writers] holds what each [csv.Writer] was given so far. *)
Fixpoint write_loop (lineToBucket : gmap Z Z) (rs : list record) (lineNum : Z)
    (writers : list (list record)) : M (list (list record)) :=
  match rs with
  | [] => ret writers
  | rec :: rs' =>
      let header := lineNum =? 0 in
      let writers := if header then Write rec <$> writers else writers in
      let lineNum := if header then lineNum + 1 else lineNum in
      match route lineToBucket (length writers) lineNum with
      | Skip =>
          print (WarnLineNotFound lineNum) ;;;
          write_loop lineToBucket rs' (lineNum + 1) writers
      | Send bucketIndex =>
          let writers := WriteTo bucketIndex rec writers in
          when (lineNum `mod` 1000000 =? 0) (print (WriteLines lineNum)) ;;;
          write_loop lineToBucket rs' (lineNum + 1) writers
      | Fatal bucketIndex =>
          print (ErrBucketOutOfRange bucketIndex lineNum) ;;;
          abort (OsExit 1)
      end
  end.

(** The records among [rs], read from line [lineNum] on, that the read loop
    sends to bucket [i]. *)
Definition routed (lineToBucket : gmap Z Z) (channelsN : nat) (i : nat)
    (lineNum : Z) (rs : list record) : list record :=
  (filter (λ p, route lineToBucket channelsN p.1 = Send i)
          (imap (λ j rec, (lineNum + Z.of_nat j, rec)) rs)).*2.

(** [fmt.Sprintf("%s%d.csv", prefix, i + 1)] *)
Definition fileName (prefix : string) (i : nat) : string :=
  prefix +:+ pretty (Z.of_nat i + 1) +:+ ".csv".

Fixpoint create_all (names : list string) : M unit :=
  match names with
  | [] => ret tt
  | name :: names' => os_Create name ;;; create_all names'
  end.

(** [write], with [orders] the orders in which the members of the buckets are
    visited.  Position [i] of the result is the content of the file
    [fileName prefix i]. *)
Definition write_along (orders : list (list Z)) (input : Source)
    (prefix : string) (buckets : list FileBucket) : M (list (list record)) :=
  print WriteStart ;;;
  create_all (imap (λ i _, fileName prefix i) buckets) ;;;
  let lineToBucket := lineToBucket_loop 0 orders ∅ in
  let* writers :=
    write_loop lineToBucket input 0 (replicate (length buckets) []) in
  print WriteDone ;;;
  ret writers.

Definition write (input : Source) (prefix : string)
    (buckets : list FileBucket) : M (list (list record)) :=
  write_along ((λ b, elements (LineNums b)) <$> buckets) input prefix buckets.

(** ** splitCmd *)

Section splitCmd.
Variable sort_Slice : list LineMeta → list LineMeta.

Definition splitCmd (input : Source) (bucketsN : Z) (prefix : string)
  : M (list (list record)) :=
  let* metas := scan input in
  let* buckets := binpack sort_Slice metas bucketsN in
  let* files := write input prefix buckets in
  print (SplitDone bucketsN) ;;;
  ret files.
End splitCmd.

(** ** The goroutines of write

    The read loop runs in the main goroutine and is the only sender; bucket
    [i] has a channel of capacity [chanCap] and a goroutine [writerRoutine]
    that receives from it and writes to its [csv.Writer].  A state holds the
    records still to read, the line counter, what is buffered in each channel
    and what each writer was given.  When the read loop leaves, the deferred
    function closes the channels and waits until every goroutine has drained
    its own.  A state whose next record is routed out of range has no
    successor: the process exits. *)
Module Conc.

Definition chanCap : nat := Z.to_nat 10000.

Record State := mkState {
  pending : list record;
  lineNum : Z;
  channels : list (list record);
  writers : list (list record);
  world : World;
  closed : bool
}.

Definition init (input : Source) (n : nat) (w : World) : State :=
  mkState input 0 (replicate n []) (replicate n []) w false.

Definition finished (st : State) : Prop :=
  closed st = true ∧ Forall (λ q, q = []) (channels st).

Inductive step (lineToBucket : gmap Z Z) : State → State → Prop :=
| step_skip rec rs ln chs ws w :
    let header := ln =? 0 in
    let ws' := if header then Write rec <$> ws else ws in
    let ln' := if header then ln + 1 else ln in
    route lineToBucket (length chs) ln' = Skip →
    step lineToBucket
      (mkState (rec :: rs) ln chs ws w false)
      (mkState rs (ln' + 1) chs ws' (print (WarnLineNotFound ln') w).1 false)
| step_send rec rs ln chs ws w i q :
    let header := ln =? 0 in
    let ws' := if header then Write rec <$> ws else ws in
    let ln' := if header then ln + 1 else ln in
    route lineToBucket (length chs) ln' = Send i →
    chs !! i = Some q →
    (length q < chanCap)%nat →
    step lineToBucket
      (mkState (rec :: rs) ln chs ws w false)
      (mkState rs (ln' + 1) (<[i := q ++ [rec]]> chs) ws'
         (when (ln' `mod` 1000000 =? 0) (print (WriteLines ln')) w).1 false)
| step_break ln chs ws w :
    step lineToBucket (mkState [] ln chs ws w false)
                      (mkState [] ln chs ws w true)
| step_writer rs ln chs ws w c i rec q :
    chs !! i = Some (rec :: q) →
    step lineToBucket (mkState rs ln chs ws w c)
                      (mkState rs ln (<[i := q]> chs) (WriteTo i rec ws) w c).

(** A run of the write pass that ends normally, from the world [w] left by
    the creation of the files: the files hold [files], the world is [w']. *)
Definition runs_to (lineToBucket : gmap Z Z) (input : Source) (n : nat)
    (w : World) (w' : World) (files : list (list record)) : Prop :=
  ∃ st, rtc (step lineToBucket) (init input n w) st ∧ finished st ∧
        w' = world st ∧ files = writers st.

(** The invariant of a run: handing each writer what is still buffered for
    it and running the read loop on the rest gives the outcome [R]. *)
Definition inv (lineToBucket : gmap Z Z) (R : World * Result (list (list record)))
    (st : State) : Prop :=
  length (channels st) = length (writers st) ∧
  0 ≤ lineNum st ∧
  (lineNum st = 0 → Forall (λ q, q = []) (channels st)) ∧
  (closed st = true → pending st = []) ∧
  write_loop lineToBucket (pending st) (lineNum st)
    (zip_with app (writers st) (channels st)) (world st) = R.

End Conc.

(** One run of [splitCmd] with its goroutines: [files] are the contents of
    the output files when the command returns. *)
Definition split_run (sort_Slice : list LineMeta → list LineMeta)
    (input : Source) (bucketsN : Z) (prefix : string)
    (files : list (list record)) : Prop :=
  ∃ w1 metas w2 buckets orders w3 w4,
    scan input (mkWorld [] []) = (w1, Ok metas) ∧
    binpack sort_Slice metas bucketsN w1 = (w2, Ok buckets) ∧
    Forall2 range_order orders buckets ∧
    (print WriteStart ;;;
     create_all (imap (λ i _, fileName prefix i) buckets)) w2 = (w3, Ok tt) ∧
    Conc.runs_to (lineToBucket_loop 0 orders ∅) input (length buckets) w3 w4 files.

(** ** The claims in the words of the specification *)

(** [b], at index [m], is the bucket whose total is minimal, the first such
    in index order. *)
Definition lightest (buckets : list FileBucket) (m : nat) (b : FileBucket)
  : Prop :=
  buckets !! m = Some b ∧
  (∀ j bj, buckets !! j = Some bj → TotalSize b ≤ TotalSize bj) ∧
  (∀ j bj, (j < m)%nat → buckets !! j = Some bj → TotalSize b < TotalSize bj).

(** Greedy assignment of the records, in the order given: each goes to the
    lightest bucket, which gets its weight and its ordinal. *)
Inductive greedy : list FileBucket → list LineMeta → list FileBucket → Prop :=
  | greedy_nil buckets : greedy buckets [] buckets
  | greedy_cons buckets meta metas m b buckets' :
      lightest buckets m b →
      greedy (<[m := assign meta b]> buckets) metas buckets' →
      greedy buckets (meta :: metas) buckets'.

(** Weight descending, ties broken by ordinal ascending. *)
Definition heavier_first (a b : LineMeta) : Prop :=
  Size b < Size a ∨ (Size a = Size b ∧ LineNumber a ≤ LineNumber b).

Definition sum_TotalSize (buckets : list FileBucket) : Z :=
  foldr (λ b acc, TotalSize b + acc) 0 buckets.

Definition sum_Size (metas : list LineMeta) : Z :=
  foldr (λ m acc, Size m + acc) 0 metas.

(** The data records with their ordinals, 1 for the first. *)
Definition numbered (data : list record) : list (Z * record) :=
  imap (λ i rec, (Z.of_nat i + 1, rec)) data.

(** The file the specification asks for bucket [b]: the header, then the
    data records whose ordinal is a member of [b], in input order. *)
Definition expected_file (input : Source) (b : FileBucket) : list record :=
  match input with
  | [] => []
  | header :: data =>
      header :: (filter (λ p, p.1 ∈ LineNums b) (numbered data)).*2
  end.

(** The file the write pass leaves for bucket [b] when no ordinal is in two
    buckets: as [expected_file], but with the header counted as record 1. *)
Definition actual_file (input : Source) (b : FileBucket) : list record :=
  match input with
  | [] => []
  | header :: _ =>
      header :: (filter (λ p, p.1 ∈ LineNums b) (numbered input)).*2
  end.

(** How often [rec] occurs in a file. *)
Definition occurrences (rec : record) (file : list record) : nat :=
  length (filter (λ r, r = rec) file).

(** The standard output of [scan] on [n] data records. *)
Definition scan_stdout (n : nat) : list Msg :=
  MetaScanStart ::
  (MetaScanLines <$> filter (λ line, line `mod` 1000000 = 0) (seqZ 2 (Z.of_nat n)))
  ++ [MetaScanFinished n].

(** [k] is a member of the bucket at index [i]. *)
Definition member_at (buckets : list FileBucket) (k : Z) (i : nat) : Prop :=
  ∃ b, buckets !! i = Some b ∧ k ∈ LineNums b.

(** [member_at] as a test. *)
Definition holds (buckets : list FileBucket) (k : Z) (i : nat) : bool :=
  match buckets !! i with
  | Some b => bool_decide (k ∈ LineNums b)
  | None => false
  end.

(** The third field of a record, the declared size. *)
Definition weight_field (rec : record) : string := default "" (rec !! 2%nat).

(** The meta [scan] makes of the data record at position [i] (from 0). *)
Definition meta_of (i : nat) (rec : record) : LineMeta :=
  mkLineMeta (Z.of_nat i + 1) (strconv.ParseInt (weight_field rec)).1.

(** Sources and metadata used as concrete inputs below. *)
Definition header : record := ["id"; "name"; "size"].
Definition row1 : record := ["1"; "a"; "10"].
Definition row2 : record := ["2"; "b"; "1"].
Definition row_unparsable : record := ["3"; "c"; "abc"].

Definition one_row : Source := [header; row1].
Definition two_rows : Source := [header; row1; row2].
Definition header_only : Source := [header].
Definition unparsable_row : Source := [header; row_unparsable].

Definition tied_metas : list LineMeta := [mkLineMeta 2 5; mkLineMeta 1 5].
Definition huge_metas : list LineMeta :=
  [mkLineMeta 1 (2 ^ 62); mkLineMeta 2 (2 ^ 62)].

(** ** Further notions used to describe the code *)

(** The bucket that holds one record and nothing else. *)
Definition single (meta : LineMeta) : FileBucket :=
  mkFileBucket (Size meta) {[LineNumber meta]}.

(** The line counts of the bucket summary, added up. *)
Definition sum_lines (buckets : list FileBucket) : nat :=
  foldr (λ b acc, (size (LineNums b) + acc)%nat) 0%nat buckets.

(** What is left to do in a state of the write pass: a send and a receive for
    every record still to read (a skip counts as much), a receive for every
    record buffered, and leaving the read loop. *)
Definition work (st : Conc.State) : nat :=
  (2 * length (Conc.pending st) + sum_list (length <$> Conc.channels st)
   + (if Conc.closed st then 0 else 1))%nat.

(** ** FormatNumber (util.go) *)

(** [s[lo:hi]] on the bytes of a string; [None] is the runtime panic for
    slice bounds out of range. *)
Definition slice (s : list ascii) (lo hi : nat) : option (list ascii) :=
  if decide (lo ≤ hi ≤ length s)%nat then Some (take (hi - lo) (drop lo s))
  else None.

(** [for i := pre; i < len(s); i += 3 { b.WriteString(",");
    b.WriteString(s[i : i+3]) }].  [fuel] bounds the number of iterations;
    [None] is a slice out of bounds or the fuel used up. *)
Fixpoint FormatNumber_loop (fuel : nat) (s : list ascii) (i : nat)
    (b : list ascii) : option (list ascii) :=
  if (i <? length s)%nat then
    match fuel with
    | O => None
    | S fuel' =>
        match slice s i (i + 3) with
        | None => None
        | Some chunk =>
            FormatNumber_loop fuel' s (i + 3) (b ++ "," %char :: chunk)
        end
    end
  else Some b.

(** [FormatNumber] on the bytes [s] that [fmt.Sprintf("%d", n)] returns. *)
Definition FormatNumber_bytes (s : list ascii) : option (list ascii) :=
  if (length s <=? 3)%nat then Some s
  else
    let pre := (length s `mod` 3)%nat in
    let pre := if (pre =? 0)%nat then 3%nat else pre in
    match slice s 0 pre with
    | None => None
    | Some b => FormatNumber_loop (length s) s pre b
    end.

Definition FormatNumber (n : Z) : option string :=
  string_of_list_ascii <$> FormatNumber_bytes (list_ascii_of_string (pretty n)).

(** ** inspectCmd *)

Inductive InspectMsg :=
  | InspectOpenError
  | InspectParseError (line : Z)
  | InspectProcessed (line : Z)
  | InspectTotal (lines : Z) (megabytes : string).

(** How the command ends: it returns, exits with a status, or panics. *)
Inductive InspectEnd :=
  | InspectReturns
  | InspectExits (code : Z)
  | InspectPanics.

(** [strconv.Atoi] where [int] has 64 bits: the value and the error of
    [ParseInt(s, 10, 64)]. *)
Definition Atoi (s : string) : Z * option strconv.NumError := strconv.ParseInt s.

(** The loop of [inspectCmd] over the records after the header; [None] is the
    panic of [record[2]] on a record with fewer than three fields. *)
Fixpoint inspect_loop (rs : list record) (lineCount totalSize : Z)
    (out : list InspectMsg) : list InspectMsg * option (Z * Z) :=
  match rs with
  | [] => (out, Some (lineCount, totalSize))
  | rec :: rs' =>
      let lineCount := lineCount + 1 in
      match rec !! 2%nat with
      | None => (out, None)
      | Some field =>
          match Atoi field with
          | (_, Some _) =>
              inspect_loop rs' lineCount totalSize
                (out ++ [InspectParseError lineCount])
          | (size, None) =>
              let totalSize := Int64.wrap (totalSize + size) in
              inspect_loop rs' lineCount totalSize
                (if lineCount `mod` 1000000 =? 0
                 then out ++ [InspectProcessed lineCount] else out)
          end
      end
  end.

(** [inspectCmd] on a file: [None] when it cannot be opened, else the records
    its reader yields.  The error of the first [r.Read()] is not looked at. *)
Definition inspectCmd (file : option Source) : list InspectMsg * InspectEnd :=
  match file with
  | None => ([InspectOpenError], InspectExits 1)
  | Some src =>
      match inspect_loop (tail src) 0 0 [] with
      | (out, None) => (out, InspectPanics)
      | (out, Some (lineCount, totalSize)) =>
          match FormatNumber (Z.quot totalSize (1024 * 1024)) with
          | None => (out, InspectPanics)
          | Some mb => (out ++ [InspectTotal lineCount mb], InspectReturns)
          end
      end
  end.

(** The size [inspectCmd] adds for a record: none when the field does not
    parse. *)
Definition parsed_size (rec : record) : option Z :=
  match Atoi (weight_field rec) with
  | (size, None) => Some size
  | (_, Some _) => None
  end.

Definition sum_parsed (data : list record) : Z :=
  foldr (λ rec acc, default 0 (parsed_size rec) + acc) 0 data.

(** * Properties *)

(** ** 64-bit arithmetic *)

Lemma wrap_in_range z : Int64.in_range (Int64.wrap z).
Proof.
  unfold Int64.in_range, Int64.wrap, Int64.min, Int64.max.
  pose proof (Z.mod_pos_bound (z + 2 ^ 63) (2 ^ 64) ltac:(lia)). lia.
Qed.

Lemma wrap_id z : Int64.in_range z → Int64.wrap z = z.
Proof.
  unfold Int64.in_range, Int64.wrap, Int64.min, Int64.max. intros H.
  rewrite Z.mod_small; lia.
Qed.

Lemma wrap_eq z : Int64.wrap z = z - 2 ^ 64 * ((z + 2 ^ 63) `div` 2 ^ 64).
Proof. unfold Int64.wrap. rewrite Z.mod_eq by lia. lia. Qed.

Lemma wrap_congr z : (Int64.wrap z) `mod` 2 ^ 64 = z `mod` 2 ^ 64.
Proof.
  rewrite wrap_eq.
  replace (z - 2 ^ 64 * ((z + 2 ^ 63) `div` 2 ^ 64))
    with (z + (- ((z + 2 ^ 63) `div` 2 ^ 64)) * 2 ^ 64) by lia.
  apply Z_mod_plus_full.
Qed.

(** ** The monad *)

Lemma bind_ok {A B} (m : M A) (k : A → M B) w w' a :
  m w = (w', Ok a) → bind m k w = k a w'.
Proof. unfold bind. by intros ->. Qed.

(** ** insertionSort_func meets the contract of sort.Slice *)

Lemma less_false_le a b : less b a = false ↔ Size b ≤ Size a.
Proof. unfold less. rewrite Z.ltb_ge. lia. Qed.

Lemma sift_perm {A} (lessA : A → A → bool) x rprefix :
  sift lessA x rprefix ≡ₚ x :: rprefix.
Proof.
  induction rprefix as [|y r IH]; simpl; [done|].
  destruct (lessA x y); [|done].
  rewrite IH. apply Permutation_swap.
Qed.

Lemma foldl_sift_perm {A} (lessA : A → A → bool) data acc :
  foldl (λ rprefix x, sift lessA x rprefix) acc data ≡ₚ data ++ acc.
Proof.
  revert acc. induction data as [|x data IH]; intros acc; simpl; [done|].
  rewrite IH, sift_perm. by rewrite Permutation_middle.
Qed.

Lemma insertionSort_perm {A} (lessA : A → A → bool) data :
  insertionSort_func lessA data ≡ₚ data.
Proof.
  unfold insertionSort_func.
  rewrite <- Permutation_rev, foldl_sift_perm. by rewrite app_nil_r.
Qed.

(** The reversed prefix is sorted the other way round: weights grow from its
    head on. *)
Lemma sift_sorted x rprefix :
  StronglySorted (λ a b, Size a ≤ Size b) rprefix →
  StronglySorted (λ a b, Size a ≤ Size b) (sift less x rprefix).
Proof.
  induction 1 as [|y r Hr IH Hy]; simpl.
  - repeat constructor.
  - unfold less at 1. destruct (Z.ltb_spec (Size y) (Size x)) as [Hlt|Hge].
    + constructor; [done|].
      rewrite sift_perm. constructor; [lia|done].
    + constructor; [by constructor|].
      constructor; [done|].
      eapply Forall_impl; [exact Hy|]. simpl. intros; lia.
Qed.

Lemma foldl_sift_sorted data acc :
  StronglySorted (λ a b, Size a ≤ Size b) acc →
  StronglySorted (λ a b, Size a ≤ Size b)
    (foldl (λ rprefix x, sift less x rprefix) acc data).
Proof.
  revert acc. induction data as [|x data IH]; intros acc Hacc; simpl; [done|].
  by apply IH, sift_sorted.
Qed.

Lemma StronglySorted_weaken {A} (R R' : relation A) l :
  (∀ a b, R a b → R' a b) → StronglySorted R l → StronglySorted R' l.
Proof.
  intros HR. induction 1 as [|x l Hl IH Hx]; constructor; [done|].
  eapply Forall_impl; [exact Hx|]. auto.
Qed.

Lemma StronglySorted_rev_flip {A} (R : relation A) l :
  StronglySorted R l → StronglySorted (flip R) (rev l).
Proof.
  induction 1 as [|x l Hl IH Hx]; simpl; [constructor|].
  apply StronglySorted_app_2; [|done|by repeat constructor].
  intros a b Ha Hb. apply list_elem_of_singleton in Hb as ->.
  apply list_elem_of_In in Ha. rewrite <- in_rev in Ha.
  apply list_elem_of_In in Ha.
  rewrite Forall_forall in Hx. by apply Hx.
Qed.

Lemma insertionSort_contract : SliceContract (insertionSort_func less).
Proof.
  intros l. split; [apply insertionSort_perm|].
  unfold insertionSort_func.
  eapply StronglySorted_weaken;
    [|apply StronglySorted_rev_flip, (foldl_sift_sorted l []); constructor].
  intros a b. unfold flip. by rewrite less_false_le.
Qed.

(** ** The inner loop of binpack finds the lightest bucket *)

Lemma minIndex_loop_lightest buckets n i m bm :
  (i + n = length buckets)%nat →
  lightest (take i buckets) m bm →
  ∃ m' b', minIndex_loop buckets i n m = Ok m' ∧ lightest buckets m' b'.
Proof.
  revert i m bm. induction n as [|n IH]; intros i m bm Hlen Hl; simpl.
  - exists m, bm. split; [done|]. by rewrite take_ge in Hl by lia.
  - destruct (lookup_lt_is_Some_2 buckets i) as [bi Hbi]; [lia|].
    destruct Hl as (Hm & Hmin & Hfirst).
    apply lookup_take_Some in Hm as [Hm Hmi].
    rewrite Hbi, Hm.
    assert (Hold : ∀ j bj, (j < i)%nat → buckets !! j = Some bj →
                           TotalSize bm ≤ TotalSize bj).
    { intros j bj Hj Hbj. apply (Hmin j). by rewrite lookup_take_lt. }
    assert (Hstrict : ∀ j bj, (j < m)%nat → buckets !! j = Some bj →
                              TotalSize bm < TotalSize bj).
    { intros j bj Hj Hbj. apply (Hfirst j); [done|].
      rewrite lookup_take_lt by lia. done. }
    destruct (Z.ltb_spec (TotalSize bi) (TotalSize bm)) as [Hlt|Hge].
    + apply (IH (S i) i bi); [lia|]. split; [|split].
      * by rewrite lookup_take_lt by lia.
      * intros j bj Hj. apply lookup_take_Some in Hj as [Hj Hji].
        destruct (decide (j = i)) as [->|Hne]; [naive_solver lia|].
        specialize (Hold j bj ltac:(lia) Hj). lia.
      * intros j bj Hji Hj. apply lookup_take_Some in Hj as [Hj _].
        specialize (Hold j bj ltac:(lia) Hj). lia.
    + apply (IH (S i) m bm); [lia|]. split; [|split].
      * by rewrite lookup_take_lt by lia.
      * intros j bj Hj. apply lookup_take_Some in Hj as [Hj Hji].
        destruct (decide (j = i)) as [->|Hne]; [naive_solver lia|].
        apply (Hold j); [lia|done].
      * intros j bj Hjm Hj. apply lookup_take_Some in Hj as [Hj _].
        by apply (Hstrict j).
Qed.

Lemma minIndex_lightest buckets :
  (1 ≤ length buckets)%nat →
  ∃ m b, minIndex_loop buckets 1 (length buckets - 1) 0 = Ok m ∧
         lightest buckets m b.
Proof.
  intros Hlen. destruct buckets as [|b0 buckets]; [simpl in Hlen; lia|].
  apply (minIndex_loop_lightest _ _ 1 0 b0); [simpl; lia|].
  simpl. rewrite take_0. split; [done|]. split.
  - intros [|j] bj Hj; simplify_eq/=; lia.
  - intros j bj Hj. lia.
Qed.

Lemma lightest_unique buckets m b m' b' :
  lightest buckets m b → lightest buckets m' b' → m = m' ∧ b = b'.
Proof.
  intros (Hm & Hmin & Hfirst) (Hm' & Hmin' & Hfirst').
  assert (m = m') as ->.
  { destruct (Nat.lt_trichotomy m m') as [Hlt|[->|Hlt]]; [|done|].
    - specialize (Hfirst' m b Hlt Hm). specialize (Hmin m' b' Hm'). lia.
    - specialize (Hfirst m' b' Hlt Hm'). specialize (Hmin' m b Hm). lia. }
  split; [done|congruence].
Qed.

(** ** binpack_loop is the greedy assignment *)

Lemma greedy_length buckets metas buckets' :
  greedy buckets metas buckets' → length buckets' = length buckets.
Proof.
  induction 1 as [|buckets meta metas m b buckets' Hl Hg IH]; [done|].
  by rewrite IH, length_insert.
Qed.

Lemma greedy_functional buckets metas r1 r2 :
  greedy buckets metas r1 → greedy buckets metas r2 → r1 = r2.
Proof.
  intros H1. revert r2.
  induction H1 as [|buckets meta metas m b buckets' Hl Hg IH]; intros r2 H2.
  - by inv H2.
  - inv H2. destruct (lightest_unique _ _ _ _ _ Hl H3) as [-> ->]. by apply IH.
Qed.

Lemma binpack_loop_greedy metas n buckets :
  n = length buckets → (1 ≤ n)%nat →
  ∃ buckets', binpack_loop n metas buckets = Ok buckets' ∧
              greedy buckets metas buckets'.
Proof.
  revert buckets. induction metas as [|meta metas IH]; intros buckets -> Hn.
  - exists buckets. split; [done|constructor].
  - simpl. destruct (minIndex_lightest buckets Hn) as (m & b & -> & Hl).
    pose proof Hl as (-> & _).
    destruct (IH (<[m := assign meta b]> buckets)) as (buckets' & Hrun & Hg);
      [by rewrite length_insert|done|].
    exists buckets'. split; [done|]. by econstructor.
Qed.

Lemma greedy_binpack_loop metas buckets buckets' :
  (1 ≤ length buckets)%nat →
  greedy buckets metas buckets' →
  binpack_loop (length buckets) metas buckets = Ok buckets'.
Proof.
  intros Hn Hg.
  destruct (binpack_loop_greedy metas _ buckets eq_refl Hn) as (r & Hrun & Hg').
  by rewrite Hrun, (greedy_functional _ _ _ _ Hg' Hg).
Qed.

(** [binpack] with at least one bucket returns the greedy assignment of the
    sorted records. *)
Lemma binpack_ok sort_Slice metas bucketsN w :
  1 ≤ bucketsN →
  ∃ buckets,
    binpack sort_Slice metas bucketsN w =
      (mkWorld (stdout w ++ [BinpackSorting; BinpackFinished] ++ summary buckets)
               (created w), Ok buckets) ∧
    greedy (replicate (Z.to_nat bucketsN) (mkFileBucket 0 ∅))
           (sort_Slice metas) buckets ∧
    length buckets = Z.to_nat bucketsN.
Proof.
  intros HB. unfold binpack.
  set (init := replicate (Z.to_nat bucketsN) (mkFileBucket 0 ∅)).
  assert (Hlen : Z.to_nat bucketsN = length init)
    by (unfold init; by rewrite length_replicate).
  destruct (binpack_loop_greedy (sort_Slice metas) _ init Hlen ltac:(lia))
    as (buckets & Hrun & Hg).
  exists buckets. split; [|split; [done|]].
  - unfold bind, print, print_all, lift, ret, abort. simpl.
    destruct (Z.ltb_spec bucketsN 0); [lia|]. fold init. rewrite Hrun. simpl.
    by rewrite <- !app_assoc.
  - by rewrite (greedy_length _ _ _ Hg), <- Hlen.
Qed.

(** ** Weights: what the greedy assignment does to the totals *)

Lemma sum_Size_perm l1 l2 : l1 ≡ₚ l2 → sum_Size l1 = sum_Size l2.
Proof.
  induction 1 as [|x l1 l2 _ IH|x y l|l1 l2 l3 _ IH1 _ IH2]; simpl; lia.
Qed.

Lemma sum_TotalSize_insert buckets m b b' :
  buckets !! m = Some b →
  sum_TotalSize (<[m := b']> buckets) =
    sum_TotalSize buckets - TotalSize b + TotalSize b'.
Proof.
  revert m. induction buckets as [|b0 buckets IH]; intros [|m] Hm;
    simplify_eq/=; [lia|].
  rewrite (IH m Hm). lia.
Qed.

Lemma sum_TotalSize_replicate n : sum_TotalSize (replicate n (mkFileBucket 0 ∅)) = 0.
Proof. induction n as [|n IH]; simpl; [done|]. by rewrite IH. Qed.

Lemma sum_TotalSize_bound buckets m b :
  Forall (λ b, 0 ≤ TotalSize b) buckets →
  buckets !! m = Some b →
  0 ≤ TotalSize b ≤ sum_TotalSize buckets.
Proof.
  intros Hpos. revert m.
  induction Hpos as [|b0 buckets H0 Hpos IH]; intros [|m] Hm; simplify_eq/=.
  - assert (0 ≤ sum_TotalSize buckets); [|lia].
    clear -Hpos. induction Hpos; simpl; lia.
  - specialize (IH m Hm). lia.
Qed.

(** The totals follow the weights up to multiples of 2^64. *)
Lemma greedy_sum_wrap buckets metas buckets' :
  greedy buckets metas buckets' →
  ∃ k, sum_TotalSize buckets' =
         sum_TotalSize buckets + sum_Size metas + 2 ^ 64 * k.
Proof.
  induction 1 as [|buckets meta metas m b buckets' (Hm & _) Hg [k IH]].
  - exists 0. simpl. lia.
  - rewrite (sum_TotalSize_insert _ _ b) in IH by done.
    simpl in IH. rewrite wrap_eq in IH. simpl.
    eexists (k - (TotalSize b + Size meta + 2 ^ 63) `div` 2 ^ 64). lia.
Qed.

(** Without overflow the totals follow the weights exactly. *)
Lemma greedy_sum_exact buckets metas buckets' :
  greedy buckets metas buckets' →
  Forall (λ b, 0 ≤ TotalSize b) buckets →
  Forall (λ m, 0 ≤ Size m) metas →
  sum_TotalSize buckets + sum_Size metas ≤ Int64.max →
  sum_TotalSize buckets' = sum_TotalSize buckets + sum_Size metas.
Proof.
  induction 1 as [|buckets meta metas m b buckets' (Hm & _) Hg IH];
    intros Hpos Hmetas Hmax; simpl in *; [lia|].
  apply Forall_cons in Hmetas as [Hmeta Hmetas].
  pose proof (sum_TotalSize_bound _ _ _ Hpos Hm) as Hb.
  assert (Hsum : 0 ≤ sum_Size metas).
  { clear -Hmetas. induction Hmetas; simpl; lia. }
  assert (Hw : Int64.wrap (TotalSize b + Size meta) = TotalSize b + Size meta).
  { apply wrap_id. unfold Int64.in_range, Int64.min, Int64.max in *. lia. }
  rewrite IH.
  - rewrite (sum_TotalSize_insert _ _ b) by done. simpl. rewrite Hw. lia.
  - apply Forall_insert; [done|]. simpl. rewrite Hw. lia.
  - done.
  - rewrite (sum_TotalSize_insert _ _ b) by done. simpl. rewrite Hw. lia.
Qed.

(** ** Members: the greedy assignment partitions the ordinals *)

Lemma member_at_assign buckets m b meta k i :
  buckets !! m = Some b →
  member_at (<[m := assign meta b]> buckets) k i ↔
  member_at buckets k i ∨ (k = LineNumber meta ∧ i = m).
Proof.
  intros Hm. unfold member_at. split.
  - intros (b' & Hb' & Hk). destruct (decide (i = m)) as [->|Hne].
    + rewrite list_lookup_insert_eq in Hb' by (by eapply lookup_lt_Some).
      simplify_eq/=. apply elem_of_union in Hk as [Hk|Hk].
      * right. split; [|done]. by apply elem_of_singleton in Hk.
      * left. eauto.
    + rewrite list_lookup_insert_ne in Hb' by done. left. eauto.
  - intros [(b' & Hb' & Hk)|[-> ->]].
    + destruct (decide (i = m)) as [->|Hne].
      * simplify_eq. exists (assign meta b).
        rewrite list_lookup_insert_eq by (by eapply lookup_lt_Some).
        split; [done|]. simpl. set_solver.
      * exists b'. by rewrite list_lookup_insert_ne.
    + exists (assign meta b).
      rewrite list_lookup_insert_eq by (by eapply lookup_lt_Some).
      split; [done|]. simpl. set_solver.
Qed.

Lemma greedy_members buckets metas buckets' :
  greedy buckets metas buckets' →
  NoDup (LineNumber <$> metas) →
  (∀ k i, member_at buckets k i → k ∉ LineNumber <$> metas) →
  (∀ k i j, member_at buckets k i → member_at buckets k j → i = j) →
  (∀ k i j, member_at buckets' k i → member_at buckets' k j → i = j) ∧
  (∀ k, (∃ i, member_at buckets' k i) ↔
        (∃ i, member_at buckets k i) ∨ k ∈ LineNumber <$> metas).
Proof.
  induction 1 as [|buckets meta metas m b buckets' (Hm & _) Hg IH];
    intros Hnd Hfresh Hdisj.
  - split; [done|]. intros k. rewrite fmap_nil. split; [by left|].
    intros [Hk|Hk]; [done|]. by apply elem_of_nil in Hk.
  - rewrite fmap_cons in Hnd. apply NoDup_cons in Hnd as [Hnew Hnd].
    destruct IH as [IH1 IH2]; [done| | |].
    + intros k i Hk Hin. apply (member_at_assign _ _ _ _ _ _ Hm) in Hk.
      destruct Hk as [Hk|[-> ->]]; [|done].
      apply (Hfresh k i Hk). rewrite fmap_cons. by apply list_elem_of_further.
    + intros k i j Hi Hj.
      apply (member_at_assign _ _ _ _ _ _ Hm) in Hi, Hj.
      destruct Hi as [Hi|[-> ->]], Hj as [Hj|[Hj1 Hj2]]; subst.
      * by eapply Hdisj.
      * exfalso. apply (Hfresh _ _ Hi). rewrite fmap_cons. apply list_elem_of_here.
      * exfalso. apply (Hfresh _ _ Hj). rewrite fmap_cons. apply list_elem_of_here.
      * done.
    + split; [done|]. intros k. rewrite IH2, fmap_cons, elem_of_cons.
      split.
      * intros [[i Hi]|Hk]; [|by auto].
        apply (member_at_assign _ _ _ _ _ _ Hm) in Hi.
        destruct Hi as [Hi|[-> ->]]; eauto.
      * intros [[i Hi]|[->|Hk]]; [| |by auto].
        -- left. exists i. apply (member_at_assign _ _ _ _ _ _ Hm). by left.
        -- left. exists m. apply (member_at_assign _ _ _ _ _ _ Hm). by right.
Qed.

Lemma member_at_replicate n k i : ¬ member_at (replicate n (mkFileBucket 0 ∅)) k i.
Proof.
  intros (b & Hb & Hk). apply lookup_replicate in Hb as [-> _]. set_solver.
Qed.

(** Every ordinal of pairwise distinct records ends in exactly one bucket,
    and the buckets hold nothing else. *)
Lemma binpack_members sort_Slice metas bucketsN w :
  SliceContract sort_Slice →
  NoDup (LineNumber <$> metas) →
  1 ≤ bucketsN →
  ∃ w' buckets,
    binpack sort_Slice metas bucketsN w = (w', Ok buckets) ∧
    length buckets = Z.to_nat bucketsN ∧
    (∀ k i j, member_at buckets k i → member_at buckets k j → i = j) ∧
    (∀ k, (∃ i, member_at buckets k i) ↔ k ∈ LineNumber <$> metas).
Proof.
  intros Hsort Hnd HB.
  destruct (binpack_ok sort_Slice metas bucketsN w HB) as (buckets & Hrun & Hg & Hlen).
  destruct (Hsort metas) as [Hperm _].
  eexists _, buckets. split; [exact Hrun|]. split; [done|].
  destruct (greedy_members _ _ _ Hg) as [H1 H2].
  - by rewrite Hperm.
  - intros k i Hk. by apply member_at_replicate in Hk.
  - intros k i j Hk. by apply member_at_replicate in Hk.
  - split; [done|]. intros k. rewrite H2, Hperm. split; [|by auto].
    intros [[i Hi]|Hk]; [|done]. by apply member_at_replicate in Hi.
Qed.

(** ** The index from line number to bucket *)

Lemma foldl_insert_lookup (i : Z) order (m0 : gmap Z Z) k :
  foldl (λ m lineNum, <[lineNum := i]> m) m0 order !! k =
    if decide (k ∈ order) then Some i else m0 !! k.
Proof.
  revert m0. induction order as [|x order IH]; intros m0; simpl.
  - destruct (decide (k ∈ [])) as [H|H]; [by apply elem_of_nil in H|done].
  - rewrite IH. destruct (decide (k ∈ order)) as [Hin|Hout].
    + by rewrite decide_True by (by apply list_elem_of_further).
    + destruct (decide (k = x)) as [->|Hne].
      * rewrite decide_True by apply list_elem_of_here.
        apply lookup_insert_eq.
      * rewrite decide_False by (rewrite elem_of_cons; intros [?|?]; done).
        by apply lookup_insert_ne.
Qed.

(** The order in which [range] visits the members of a bucket does not
    change the index. *)
Lemma lineToBucket_loop_orders orders1 orders2 i m0 :
  Forall2 (≡ₚ) orders1 orders2 →
  lineToBucket_loop i orders1 m0 = lineToBucket_loop i orders2 m0.
Proof.
  intros H. revert i m0.
  induction H as [|o1 o2 orders1 orders2 Ho _ IH]; intros i m0; simpl; [done|].
  rewrite IH. f_equal. apply map_eq. intros k.
  rewrite !foldl_insert_lookup.
  destruct (decide (k ∈ o1)) as [H1|H1], (decide (k ∈ o2)) as [H2|H2];
    try done; by rewrite Ho in H1.
Qed.

Lemma lineToBucket_range_orders orders buckets :
  Forall2 range_order orders buckets →
  lineToBucket_loop 0 orders ∅ = lineToBucket buckets.
Proof.
  intros H. unfold lineToBucket. apply lineToBucket_loop_orders.
  apply Forall2_fmap_r. eapply Forall2_impl; [exact H|]. done.
Qed.

Lemma lineToBucket_loop_bound orders i m0 k v :
  lineToBucket_loop i orders m0 !! k = Some v →
  m0 !! k = Some v ∨ i ≤ v < i + Z.of_nat (length orders).
Proof.
  revert i m0. induction orders as [|o orders IH]; intros i m0 Hk; simpl in *.
  - by left.
  - apply IH in Hk as [Hk|Hk]; [|right; lia].
    rewrite foldl_insert_lookup in Hk. case_decide; [|by left].
    simplify_eq. right. lia.
Qed.

(** ** The read loop of write *)

Lemma route_in_range lineToBucket n :
  (∀ k v, lineToBucket !! k = Some v → 0 ≤ v < Z.of_nat n) →
  ∀ lineNum bucketIndex, route lineToBucket n lineNum ≠ Fatal bucketIndex.
Proof.
  intros Hrange lineNum bucketIndex. unfold route.
  destruct (lineToBucket !! lineNum) as [v|] eqn:Hv; [|done].
  specialize (Hrange _ _ Hv).
  destruct (Z.leb_spec 0 v), (Z.ltb_spec v (Z.of_nat n)); simpl; done || lia.
Qed.

Lemma length_WriteTo i rec writers : length (WriteTo i rec writers) = length writers.
Proof. apply length_alter. Qed.

(** With no out-of-range route the read loop returns, and keeps the number
    of writers. *)
Lemma write_loop_ok lineToBucket rs :
  ∀ lineNum writers w,
  (∀ ln bi, route lineToBucket (length writers) ln ≠ Fatal bi) →
  ∃ w' files, write_loop lineToBucket rs lineNum writers w = (w', Ok files) ∧
              length files = length writers ∧ created w' = created w.
Proof.
  induction rs as [|rec rs IH]; intros lineNum writers w Hroute; simpl.
  - by exists w, writers.
  - set (writers' := if lineNum =? 0 then Write rec <$> writers else writers).
    set (ln := if lineNum =? 0 then lineNum + 1 else lineNum).
    assert (Hlen : length writers' = length writers).
    { unfold writers'. destruct (lineNum =? 0); [by rewrite length_fmap|done]. }
    destruct (route lineToBucket (length writers') ln) as [i| |bi] eqn:Hr.
    + destruct (IH (ln + 1) (WriteTo i rec writers')
                  ((when (ln `mod` 1000000 =? 0) (print (WriteLines ln)) w).1))
        as (w' & files & Hrun & Hfiles & Hcreated).
      { rewrite length_WriteTo, Hlen. done. }
      exists w', files. split; [|split].
      * unfold bind at 1. unfold when in *.
        destruct (ln `mod` 1000000 =? 0); simpl in *; exact Hrun.
      * by rewrite Hfiles, length_WriteTo.
      * rewrite Hcreated. unfold when. by destruct (ln `mod` 1000000 =? 0).
    + destruct (IH (ln + 1) writers' ((print (WarnLineNotFound ln) w).1))
        as (w' & files & Hrun & Hfiles & Hcreated).
      { by rewrite Hlen. }
      exists w', files. split; [exact Hrun|]. split; [congruence|done].
    + rewrite Hlen in Hr. by apply Hroute in Hr.
Qed.

(** The header branch leaves the read loop where a record read at line 1
    finds it, the header written to every writer. *)
Lemma write_loop_header lineToBucket rec rs writers w :
  write_loop lineToBucket (rec :: rs) 0 writers w =
  write_loop lineToBucket (rec :: rs) 1 (Write rec <$> writers) w.
Proof. cbn [write_loop]. simpl. by rewrite length_fmap. Qed.

Lemma routed_cons lineToBucket n i lineNum rec rs :
  routed lineToBucket n i lineNum (rec :: rs) =
    (if decide (route lineToBucket n lineNum = Send i) then [rec] else [])
    ++ routed lineToBucket n i (lineNum + 1) rs.
Proof.
  unfold routed. rewrite imap_cons, filter_cons. cbn [fst].
  rewrite (imap_ext _ (λ j rec, (lineNum + 1 + Z.of_nat j, rec)))
    by (intros j x _; simpl; f_equal; lia).
  replace (lineNum + Z.of_nat 0) with lineNum by lia.
  by destruct (decide (route lineToBucket n lineNum = Send i)).
Qed.

(** From a line number above 0 on, each writer gets the records routed to
    it, in the order read. *)
Lemma write_loop_routed lineToBucket n rs :
  (∀ ln bi, route lineToBucket n ln ≠ Fatal bi) →
  ∀ lineNum writers w,
  0 < lineNum → length writers = n →
  ∃ w', write_loop lineToBucket rs lineNum writers w =
          (w', Ok (imap (λ i f, f ++ routed lineToBucket n i lineNum rs) writers)).
Proof.
  intros Hroute.
  induction rs as [|rec rs IH]; intros lineNum writers w Hpos Hlen.
  - exists w. simpl. unfold ret. f_equal. f_equal.
    rewrite <- (list_fmap_id writers) at 1. rewrite <- imap_const.
    apply imap_ext. intros i f _. unfold routed. simpl. by rewrite app_nil_r.
  - cbn [write_loop]. destruct (Z.eqb_spec lineNum 0) as [?|_]; [lia|].
    rewrite Hlen.
    destruct (route lineToBucket n lineNum) as [i0| |bi] eqn:Hr.
    + destruct (IH (lineNum + 1) (WriteTo i0 rec writers)
                  ((when (lineNum `mod` 1000000 =? 0)
                      (print (WriteLines lineNum)) w).1))
        as [w' Hrun]; [lia|by rewrite length_WriteTo|].
      exists w'. unfold bind, when in *.
      destruct (lineNum `mod` 1000000 =? 0); simpl in *; rewrite Hrun;
        f_equal; f_equal; apply list_eq; intros i;
        rewrite !list_lookup_imap; unfold WriteTo;
        rewrite list_lookup_alter, routed_cons, Hr;
        (destruct (decide (i0 = i)) as [->|Hne];
         [rewrite decide_True by done; destruct (writers !! i); simpl;
          [unfold Write; by rewrite <- app_assoc|done]
         |rewrite decide_False by congruence; by destruct (writers !! i)]).
    + destruct (IH (lineNum + 1) writers ((print (WarnLineNotFound lineNum) w).1))
        as [w' Hrun]; [lia|done|].
      exists w'. unfold bind. simpl in *. rewrite Hrun. f_equal. f_equal.
      apply imap_ext. intros i f _. by rewrite routed_cons, Hr.
    + by apply Hroute in Hr.
Qed.

(** The index sends a line number to the last bucket that holds it. *)
Lemma lineToBucket_loop_absent orders i0 (m0 : gmap Z Z) k :
  (∀ o, o ∈ orders → k ∉ o) →
  lineToBucket_loop i0 orders m0 !! k = m0 !! k.
Proof.
  revert i0 m0. induction orders as [|o orders IH]; intros i0 m0 Hout; [done|].
  simpl. rewrite IH by (intros o' Ho'; apply Hout; by apply list_elem_of_further).
  rewrite foldl_insert_lookup.
  rewrite decide_False; [done|]. apply Hout, list_elem_of_here.
Qed.

Lemma lineToBucket_loop_last orders i0 (m0 : gmap Z Z) k j o :
  orders !! j = Some o → k ∈ o →
  (∀ j' o', (j < j')%nat → orders !! j' = Some o' → k ∉ o') →
  lineToBucket_loop i0 orders m0 !! k = Some (i0 + Z.of_nat j).
Proof.
  revert i0 m0 j.
  induction orders as [|o0 orders IH]; intros i0 m0 [|j] Hj Hk Hlast;
    simplify_eq/=.
  - rewrite lineToBucket_loop_absent.
    + rewrite foldl_insert_lookup, decide_True by done. f_equal. lia.
    + intros o' Ho'. apply list_elem_of_lookup in Ho' as [j' Hj'].
      apply (Hlast (S j')); [lia|done].
  - rewrite (IH _ _ j) by
      (done || (intros j' o' Hlt Hj'; apply (Hlast (S j')); [lia|done])).
    f_equal. lia.
Qed.

Lemma route_member buckets k i :
  (∀ k i j, member_at buckets k i → member_at buckets k j → i = j) →
  member_at buckets k i →
  route (lineToBucket buckets) (length buckets) k = Send i.
Proof.
  intros Hdisj (b & Hb & Hk). unfold route, lineToBucket.
  rewrite (lineToBucket_loop_last _ 0 ∅ k i (elements (LineNums b))).
  - pose proof (lookup_lt_Some _ _ _ Hb) as Hi.
    rewrite Z.add_0_l.
    destruct (Z.leb_spec 0 (Z.of_nat i)); [|lia].
    destruct (Z.ltb_spec (Z.of_nat i) (Z.of_nat (length buckets))); [|lia].
    simpl. by rewrite Nat2Z.id.
  - by rewrite list_lookup_fmap, Hb.
  - by apply elem_of_elements.
  - intros j' o' Hlt Hj' Hin.
    rewrite list_lookup_fmap in Hj'.
    destruct (buckets !! j') as [b'|] eqn:Hb'; simplify_eq/=.
    apply elem_of_elements in Hin.
    assert (i = j'); [|lia].
    apply (Hdisj k); by eexists.
Qed.

Lemma route_no_member buckets k :
  (∀ i, ¬ member_at buckets k i) →
  route (lineToBucket buckets) (length buckets) k = Skip.
Proof.
  intros Hnone. unfold route, lineToBucket.
  rewrite lineToBucket_loop_absent; [done|].
  intros o Ho Hin. apply list_elem_of_fmap in Ho as (b & -> & Hb).
  apply list_elem_of_lookup in Hb as [i Hi].
  apply elem_of_elements in Hin. apply (Hnone i). by exists b.
Qed.

Lemma route_Send_member buckets k i b :
  (∀ k i j, member_at buckets k i → member_at buckets k j → i = j) →
  buckets !! i = Some b →
  route (lineToBucket buckets) (length buckets) k = Send i ↔ k ∈ LineNums b.
Proof.
  intros Hdisj Hb. split.
  - intros Hr.
    destruct (decide (Exists (λ b', k ∈ LineNums b') buckets)) as [Hex|Hnone].
    + apply Exists_exists in Hex as (b' & Hin & Hk).
      apply list_elem_of_lookup in Hin as [j Hj].
      rewrite (route_member buckets k j) in Hr by (done || by exists b').
      by simplify_eq.
    + rewrite route_no_member in Hr; [done|].
      intros j (b' & Hb' & Hin). apply Hnone, Exists_exists. exists b'.
      split; [|done]. by eapply list_elem_of_lookup_2.
  - intros Hk. apply route_member; [done|]. by exists b.
Qed.

(** ** The goroutines: every complete run gives the files of the read loop *)

Lemma zip_app_empty (ws chs : list (list record)) :
  length chs = length ws → Forall (λ q, q = []) chs → zip_with app ws chs = ws.
Proof.
  revert chs. induction ws as [|x ws IH]; intros [|q chs] Hlen Hall;
    simplify_eq/=; [done|].
  apply Forall_cons in Hall as [-> Hall]. by rewrite app_nil_r, IH.
Qed.

Lemma zip_app_send (ws chs : list (list record)) i q rec :
  chs !! i = Some q →
  zip_with app ws (<[i := q ++ [rec]]> chs) = WriteTo i rec (zip_with app ws chs).
Proof.
  unfold WriteTo, Write.
  revert chs i. induction ws as [|x ws IH]; intros [|q' chs] [|i] Hq;
    simplify_eq/=; try done.
  - by rewrite app_assoc.
  - by rewrite IH.
Qed.

Lemma zip_app_receive (ws chs : list (list record)) i q rec :
  chs !! i = Some (rec :: q) →
  zip_with app (WriteTo i rec ws) (<[i := q]> chs) = zip_with app ws chs.
Proof.
  unfold WriteTo, Write.
  revert chs i. induction ws as [|x ws IH]; intros [|q' chs] [|i] Hq;
    simplify_eq/=; try done.
  - by rewrite <- app_assoc.
  - by rewrite IH.
Qed.

Lemma inv_init lineToBucket input n w :
  Conc.inv lineToBucket (write_loop lineToBucket input 0 (replicate n []) w)
           (Conc.init input n w).
Proof.
  unfold Conc.inv, Conc.init. simpl. rewrite !length_replicate.
  split; [done|]. split; [done|]. split; [intros _; by apply Forall_replicate|].
  split; [done|].
  rewrite zip_app_empty; [done|by rewrite !length_replicate|].
  by apply Forall_replicate.
Qed.

Lemma inv_step lineToBucket R st st' :
  Conc.step lineToBucket st st' →
  Conc.inv lineToBucket R st → Conc.inv lineToBucket R st'.
Proof.
  unfold Conc.inv.
  destruct 1 as [rec rs ln chs ws w header ws' ln' Hr
                |rec rs ln chs ws w i q header ws' ln' Hr Hq Hcap
                |ln chs ws w
                |rs ln chs ws w c i rec q Hq]; simpl;
    intros (Hlen & Hpos & Hzero & Hclosed & Hloop).
  - assert (Hws' : length ws' = length ws).
    { unfold ws'. destruct header; [by rewrite length_fmap|done]. }
    assert (Hz : zip_with app ws' chs =
                 if header then Write rec <$> zip_with app ws chs
                 else zip_with app ws chs).
    { unfold ws', header in *. destruct (Z.eqb_spec ln 0) as [H0|H0]; [|done].
      specialize (Hzero H0).
      rewrite !zip_app_empty; by rewrite ?length_fmap. }
    assert (Hln' : 0 ≤ ln').
    { unfold ln', header. destruct (Z.eqb_spec ln 0); lia. }
    split; [congruence|]. split; [lia|]. split; [intros; lia|]. split; [done|].
    rewrite <- Hloop. fold header. rewrite <- Hz. fold ln'.
    replace (length (zip_with app ws' chs)) with (length chs)
      by (rewrite length_zip_with_l_eq; congruence).
    rewrite Hr. done.
  - assert (Hws' : length ws' = length ws).
    { unfold ws'. destruct header; [by rewrite length_fmap|done]. }
    assert (Hz : zip_with app ws' chs =
                 if header then Write rec <$> zip_with app ws chs
                 else zip_with app ws chs).
    { unfold ws', header in *. destruct (Z.eqb_spec ln 0) as [H0|H0]; [|done].
      specialize (Hzero H0).
      rewrite !zip_app_empty; by rewrite ?length_fmap. }
    assert (Hln' : 0 ≤ ln').
    { unfold ln', header. destruct (Z.eqb_spec ln 0); lia. }
    split; [rewrite length_insert; congruence|].
    split; [lia|]. split; [intros; lia|]. split; [done|].
    rewrite <- Hloop. fold header. rewrite <- Hz. fold ln'.
    replace (length (zip_with app ws' chs)) with (length chs)
      by (rewrite length_zip_with_l_eq; congruence).
    rewrite Hr. rewrite (zip_app_send _ _ _ _ _ Hq).
    unfold bind, when. by destruct (ln' `mod` 1000000 =? 0).
  - done.
  - split; [by rewrite length_insert, length_WriteTo|]. split; [done|].
    split.
    { intros H0. specialize (Hzero H0).
      by apply (Forall_lookup_1 _ _ _ _ Hzero) in Hq. }
    split; [done|]. by rewrite (zip_app_receive _ _ _ _ _ Hq).
Qed.

Lemma inv_rtc lineToBucket R st st' :
  rtc (Conc.step lineToBucket) st st' →
  Conc.inv lineToBucket R st → Conc.inv lineToBucket R st'.
Proof. induction 1; eauto using inv_step. Qed.

(** Whatever the interleaving of the goroutines, a run that ends normally
    leaves the world and the files of the read loop. *)
Lemma runs_to_write_loop lineToBucket input n w w' files :
  Conc.runs_to lineToBucket input n w w' files →
  write_loop lineToBucket input 0 (replicate n []) w = (w', Ok files).
Proof.
  intros (st & Hrtc & (Hclosed & Hempty) & -> & ->).
  pose proof (inv_rtc _ _ _ _ Hrtc (inv_init _ _ _ _)) as Hinv.
  destruct Hinv as (Hlen & _ & _ & Hpending & Hloop).
  rewrite <- Hloop, (Hpending Hclosed). simpl.
  by rewrite zip_app_empty.
Qed.

Lemma route_Send_lt lineToBucket n lineNum i :
  route lineToBucket n lineNum = Send i → (i < n)%nat.
Proof.
  unfold route. destruct (lineToBucket !! lineNum) as [v|]; [|done].
  destruct (Z.leb_spec 0 v), (Z.ltb_spec v (Z.of_nat n)); simpl; try done.
  intros [= <-]. lia.
Qed.

(** The schedule in which each record sent is received at once: a run exists
    whenever the read loop returns. *)
Lemma eager_run lineToBucket n rs :
  ∀ ln ws w w' files,
  length ws = n →
  write_loop lineToBucket rs ln ws w = (w', Ok files) →
  ∃ ln', rtc (Conc.step lineToBucket)
             (Conc.mkState rs ln (replicate n []) ws w false)
             (Conc.mkState [] ln' (replicate n []) files w' true).
Proof.
  induction rs as [|rec rs IH]; intros ln ws w w' files Hlen Hrun.
  - simpl in Hrun. unfold ret in Hrun. simplify_eq.
    exists ln. apply rtc_once. constructor.
  - simpl in Hrun.
    set (ws' := if ln =? 0 then Write rec <$> ws else ws) in *.
    set (ln1 := if ln =? 0 then ln + 1 else ln) in *.
    assert (Hws' : length ws' = n).
    { unfold ws'. destruct (ln =? 0); [by rewrite length_fmap|done]. }
    rewrite Hws' in Hrun.
    destruct (route lineToBucket n ln1) as [i| |bi] eqn:Hr.
    + pose proof (route_Send_lt _ _ _ _ Hr) as Hi.
      destruct (IH (ln1 + 1) (WriteTo i rec ws')
                  ((when (ln1 `mod` 1000000 =? 0) (print (WriteLines ln1)) w).1)
                  w' files) as [ln' Hrtc].
      { by rewrite length_WriteTo. }
      { unfold bind, when in *. by destruct (ln1 `mod` 1000000 =? 0). }
      exists ln'.
      eapply rtc_l.
      { apply (Conc.step_send lineToBucket rec rs ln (replicate n []) ws w i []).
        - by rewrite length_replicate.
        - by apply lookup_replicate_2.
        - unfold Conc.chanCap. simpl. lia. }
      eapply rtc_l.
      { apply (Conc.step_writer lineToBucket _ _ _ _ _ _ i rec []).
        rewrite list_lookup_insert_eq; [done|by rewrite length_replicate]. }
      rewrite list_insert_insert_eq.
      rewrite list_insert_id by (by apply lookup_replicate_2).
      exact Hrtc.
    + destruct (IH (ln1 + 1) ws' ((print (WarnLineNotFound ln1) w).1) w' files)
        as [ln' Hrtc]; [done|exact Hrun|].
      exists ln'. eapply rtc_l; [|exact Hrtc].
      apply (Conc.step_skip lineToBucket rec rs ln (replicate n []) ws w).
      by rewrite length_replicate.
    + done.
Qed.

Lemma write_loop_runs_to lineToBucket input n w w' files :
  write_loop lineToBucket input 0 (replicate n []) w = (w', Ok files) →
  Conc.runs_to lineToBucket input n w w' files.
Proof.
  intros Hrun.
  destruct (eager_run lineToBucket n input 0 (replicate n []) w w' files)
    as [ln' Hrtc]; [by rewrite length_replicate|done|].
  eexists. split; [exact Hrtc|]. split; [|done].
  split; [done|]. simpl. by apply Forall_replicate.
Qed.

(** ** splitCmd and its runs *)

Lemma create_all_ok names w :
  create_all names w = (mkWorld (stdout w) (created w ++ names), Ok tt).
Proof.
  revert w. induction names as [|name names IH]; intros [out cr]; simpl.
  - unfold ret. by rewrite app_nil_r.
  - unfold bind, os_Create. simpl. rewrite IH. simpl. by rewrite <- app_assoc.
Qed.

Lemma range_order_elements buckets :
  Forall2 range_order ((λ b, elements (LineNums b)) <$> buckets) buckets.
Proof.
  induction buckets as [|b buckets IH]; [by apply Forall2_nil|].
  rewrite fmap_cons. apply Forall2_cons. split; [|done]. by unfold range_order.
Qed.

(** When no ordinal is in two buckets, the write pass returns, and leaves for
    each bucket the header followed by the records of the input, the header
    counted as the first, whose number is a member of the bucket. *)
Lemma write_files buckets input prefix w :
  (∀ k i j, member_at buckets k i → member_at buckets k j → i = j) →
  ∃ w', write input prefix buckets w = (w', Ok (actual_file input <$> buckets)).
Proof.
  intros Hdisj. unfold write, write_along, bind, print. simpl.
  rewrite create_all_ok. cbn [stdout created].
  fold (lineToBucket buckets).
  assert (Hroute : ∀ ln bi,
            route (lineToBucket buckets) (length buckets) ln ≠ Fatal bi).
  { apply route_in_range. intros k v Hk.
    apply lineToBucket_loop_bound in Hk as [Hk|Hk]; [done|].
    rewrite length_fmap in Hk. lia. }
  destruct input as [|hdr data].
  - simpl. unfold ret. eexists. f_equal. f_equal.
    clear. induction buckets as [|b buckets IH]; simpl; [done|]. by rewrite IH.
  - rewrite write_loop_header.
    destruct (write_loop_routed (lineToBucket buckets) (length buckets)
                (hdr :: data) Hroute 1
                (Write hdr <$> replicate (length buckets) [])
                (mkWorld (stdout w ++ [WriteStart])
                   (created w ++ imap (λ i _, fileName prefix i) buckets)))
      as [w' Hrun]; [lia|by rewrite length_fmap, length_replicate|].
    rewrite Hrun. unfold ret. eexists. f_equal. f_equal.
    apply list_eq. intros i.
    rewrite list_lookup_imap, !list_lookup_fmap.
    destruct (buckets !! i) as [b|] eqn:Hb.
    + rewrite lookup_replicate_2 by (by eapply lookup_lt_Some). simpl.
      f_equal. unfold Write, routed, numbered. cbn [app]. f_equal. f_equal.
      rewrite (imap_ext (λ j rec, (Z.of_nat j + 1, rec))
                 (λ j rec, (1 + Z.of_nat j, rec)) (hdr :: data))
        by (intros j x _; simpl; f_equal; lia).
      apply list_filter_iff. intros [k rec]. simpl.
      by apply route_Send_member.
    + rewrite (proj1 (lookup_replicate_None _ _ _)); [done|].
      by apply lookup_ge_None.
Qed.

(** Every run of the command with its goroutines, whatever the order in
    which maps are visited, leaves the files [splitCmd] computes. *)
Lemma split_run_splitCmd sort_Slice input bucketsN prefix files :
  split_run sort_Slice input bucketsN prefix files →
  ∃ w, run (splitCmd sort_Slice input bucketsN prefix) = (w, Ok files).
Proof.
  intros (w1 & metas & w2 & buckets & orders & w3 & w4 &
          Hscan & Hbin & Horders & Hcreate & Hruns).
  apply runs_to_write_loop in Hruns.
  rewrite (lineToBucket_range_orders _ _ Horders) in Hruns.
  unfold run, splitCmd, write, write_along.
  rewrite (bind_ok _ _ _ _ _ Hscan), (bind_ok _ _ _ _ _ Hbin).
  unfold bind in Hcreate |- *.
  destruct (print WriteStart w2) as [w2' [[]|e]]; [|done].
  rewrite create_all_ok in Hcreate |- *. simplify_eq.
  fold (lineToBucket buckets). rewrite Hruns. simpl. eauto.
Qed.

Lemma splitCmd_split_run sort_Slice input bucketsN prefix w files :
  run (splitCmd sort_Slice input bucketsN prefix) = (w, Ok files) →
  split_run sort_Slice input bucketsN prefix files.
Proof.
  unfold run, splitCmd, write, write_along, split_run. intros Hrun.
  unfold bind at 1 in Hrun.
  destruct (scan input _) as [w1 [metas|e]] eqn:Hscan; [|done].
  unfold bind at 1 in Hrun.
  destruct (binpack _ _ _ _) as [w2 [buckets|e]] eqn:Hbin; [|done].
  unfold bind at 1 2 3 4 in Hrun. unfold print at 1 in Hrun.
  rewrite create_all_ok in Hrun. simpl in Hrun.
  fold (lineToBucket buckets) in Hrun.
  destruct (write_loop _ _ _ _ _) as [w4 [files'|e]] eqn:Hloop; [|done].
  unfold bind, print, ret in Hrun. simpl in Hrun. simplify_eq.
  eexists w1, metas, w2, buckets, _, _, w4.
  split; [done|]. split; [done|]. split; [apply range_order_elements|].
  split.
  - unfold bind, print. by rewrite create_all_ok.
  - apply write_loop_runs_to. exact Hloop.
Qed.

(** ** scan *)

Lemma ParseInt_syntax s :
  (strconv.ParseInt s).2 = Some strconv.ErrSyntax → (strconv.ParseInt s).1 = 0.
Proof.
  unfold strconv.ParseInt. destruct s as [|c s]; [done|].
  destruct (strconv.ParseUint _) as [un [[]|]]; simpl; [done| |];
    repeat (match goal with |- context [if ?b then _ else _] => destruct b end;
            simpl; try done).
Qed.

Example ParseInt_plain : strconv.ParseInt "4200" = (4200, None).
Proof. reflexivity. Qed.

Example ParseInt_signed :
  strconv.ParseInt "+7" = (7, None) ∧ strconv.ParseInt "-12" = (-12, None).
Proof. split; reflexivity. Qed.

Example ParseInt_not_a_number :
  strconv.ParseInt "" = (0, Some strconv.ErrSyntax) ∧
  strconv.ParseInt "-" = (0, Some strconv.ErrSyntax) ∧
  strconv.ParseInt "12a" = (0, Some strconv.ErrSyntax) ∧
  strconv.ParseInt "1_000" = (0, Some strconv.ErrSyntax).
Proof. repeat split; reflexivity. Qed.

Example ParseInt_out_of_range :
  strconv.ParseInt "9223372036854775807" = (Int64.max, None) ∧
  strconv.ParseInt "9223372036854775808" = (Int64.max, Some strconv.ErrRange) ∧
  strconv.ParseInt "-9223372036854775808" = (Int64.min, None) ∧
  strconv.ParseInt "-99999999999999999999" = (Int64.min, Some strconv.ErrRange).
Proof. repeat split; reflexivity. Qed.

Lemma scan_loop_ok rs :
  ∀ line metas w,
  Forall (λ rec : record, is_Some (rec !! 2%nat)) rs →
  scan_loop rs line metas w =
    (mkWorld (stdout w ++
                (MetaScanLines <$>
                   filter (λ l, l `mod` 1000000 = 0)
                          (seqZ (line + 1) (Z.of_nat (length rs)))))
             (created w),
     Ok (metas ++
         imap (λ i rec, mkLineMeta (line + Z.of_nat i)
                          (strconv.ParseInt (weight_field rec)).1) rs)).
Proof.
  induction rs as [|rec rs IH]; intros line metas [out cr] Hall.
  - simpl. unfold ret. by rewrite !app_nil_r.
  - apply Forall_cons in Hall as [[field Hfield] Hall].
    cbn [scan_loop]. rewrite Hfield.
    unfold bind, when.
    rewrite length_cons, Nat2Z.inj_succ, seqZ_cons by lia.
    rewrite filter_cons, Z.pred_succ.
    replace (Z.succ (line + 1)) with (line + 1 + 1) by lia.
    rewrite imap_cons.
    rewrite (imap_ext _ (λ i rec, mkLineMeta (line + 1 + Z.of_nat i)
                                    (strconv.ParseInt (weight_field rec)).1))
      by (intros i x _; simpl; f_equal; lia).
    unfold weight_field at 1. rewrite Hfield. simpl default.
    replace (line + Z.of_nat 0) with line by lia.
    destruct (Z.eqb_spec ((line + 1) `mod` 1000000) 0) as [H0|H0].
    + rewrite decide_True by done.
      unfold print. cbn [stdout created fst snd]. rewrite IH by done.
      cbn [stdout created]. rewrite fmap_cons, <- !app_assoc. done.
    + rewrite decide_False by done.
      unfold ret. cbn [stdout created fst snd]. rewrite IH by done.
      cbn [stdout created]. rewrite <- !app_assoc. done.
Qed.

(** On a source whose data records all have a third field, [scan] returns one
    meta per data record, numbered from 1 in input order, with the value
    [ParseInt] returns as weight; what it prints depends on the number of
    records only. *)
Lemma scan_ok header data w :
  Forall (λ rec : record, is_Some (rec !! 2%nat)) data →
  scan (header :: data) w =
    (mkWorld (stdout w ++ scan_stdout (length data)) (created w),
     Ok (imap meta_of data)).
Proof.
  intros Hall. unfold scan, bind at 1, print at 1.
  unfold bind. rewrite (scan_loop_ok data 1 []) by done.
  unfold print, ret. cbn [stdout created app]. rewrite length_imap.
  unfold scan_stdout. f_equal.
  - f_equal. rewrite <- !app_assoc. done.
  - f_equal. apply imap_ext. intros i x _. unfold meta_of. f_equal. lia.
Qed.

Lemma meta_of_ordinals data :
  LineNumber <$> imap meta_of data = (λ i, Z.of_nat i + 1) <$> seq 0 (length data).
Proof.
  apply list_eq. intros i.
  rewrite !list_lookup_fmap, list_lookup_imap.
  destruct (data !! i) as [rec|] eqn:Hi; simpl.
  - rewrite lookup_seq_lt by (by eapply lookup_lt_Some). done.
  - rewrite lookup_seq_ge by (by apply lookup_ge_None). done.
Qed.

Lemma meta_of_NoDup data : NoDup (LineNumber <$> imap meta_of data).
Proof.
  rewrite meta_of_ordinals. apply NoDup_fmap_2; [|apply NoDup_seq].
  intros i j. lia.
Qed.

(** ** The partitioner *)

Lemma SliceContract_sorted sort_Slice metas :
  SliceContract sort_Slice →
  StronglySorted (λ a b, Size b ≤ Size a) (sort_Slice metas).
Proof.
  intros Hsort. destruct (Hsort metas) as [_ Hs].
  eapply StronglySorted_weaken; [|exact Hs].
  intros a b. by rewrite less_false_le.
Qed.

(** C2, amended: for every metadata sequence and every bucket count B >= 1,
    the partitioner processes the records in the order [sort.Slice] leaves
    them, which is a permutation of the input in which weights never
    increase (the order among records of equal weight is not fixed by the
    code), and assigns each record to the bucket whose current total is
    minimal at that moment, the lowest index on ties, adding the weight to
    that total (in 64-bit arithmetic) and the ordinal to its member set. *)
Theorem binpack_greedy_assignment sort_Slice metas bucketsN w :
  SliceContract sort_Slice →
  1 ≤ bucketsN →
  ∃ w' buckets,
    binpack sort_Slice metas bucketsN w = (w', Ok buckets) ∧
    length buckets = Z.to_nat bucketsN ∧
    sort_Slice metas ≡ₚ metas ∧
    StronglySorted (λ a b, Size b ≤ Size a) (sort_Slice metas) ∧
    greedy (replicate (Z.to_nat bucketsN) (mkFileBucket 0 ∅))
           (sort_Slice metas) buckets.
Proof.
  intros Hsort HB.
  destruct (binpack_ok sort_Slice metas bucketsN w HB) as (buckets & Hrun & Hg & Hlen).
  eexists _, buckets. split; [exact Hrun|]. split; [exact Hlen|].
  split; [apply Hsort|]. split; [by apply SliceContract_sorted|done].
Qed.

(** The scenario of the specification: weights 10, 1, 1, 1, 1 on two buckets
    give the totals 10 and 4. *)
Example binpack_five_records :
  ∃ w buckets,
    run (binpack (insertionSort_func less)
           [mkLineMeta 1 10; mkLineMeta 2 1; mkLineMeta 3 1; mkLineMeta 4 1;
            mkLineMeta 5 1] 2) = (w, Ok buckets) ∧
    TotalSize <$> buckets = [10; 4] ∧
    holds buckets 1 0 = true ∧
    forallb (λ k, holds buckets k 1) [2; 3; 4; 5] = true.
Proof.
  eexists _, _. split; [vm_compute; reflexivity|]. by vm_compute.
Qed.

Lemma binpack_greedy_assignment_witness :
  SliceContract (insertionSort_func less) ∧ 1 ≤ 2 ∧
  ∃ w' buckets,
    binpack (insertionSort_func less) tied_metas 2 (mkWorld [] []) = (w', Ok buckets) ∧
    length buckets = Z.to_nat 2 ∧
    insertionSort_func less tied_metas ≡ₚ tied_metas ∧
    StronglySorted (λ a b, Size b ≤ Size a) (insertionSort_func less tied_metas) ∧
    greedy (replicate (Z.to_nat 2) (mkFileBucket 0 ∅))
           (insertionSort_func less tied_metas) buckets.
Proof.
  split; [apply insertionSort_contract|]. split; [lia|].
  apply (binpack_greedy_assignment (insertionSort_func less) tied_metas 2
           (mkWorld [] []) insertionSort_contract).
  lia.
Defined.

(** C2, as stated, fails: on two records of equal weight given with ordinals
    2 and 1, [sort.Slice] (an insertion sort on so short a slice) moves
    nothing and ordinal 2 gets bucket 0; no order that breaks ties by
    ascending ordinal leads the greedy assignment to these buckets. *)
Lemma binpack_ties_not_by_ordinal :
  (∃ w' buckets,
     binpack (insertionSort_func less) tied_metas 2 (mkWorld [] []) = (w', Ok buckets) ∧
     holds buckets 2 0 = true ∧ holds buckets 1 1 = true) ∧
  ¬ ∃ order buckets w',
      order ≡ₚ tied_metas ∧
      StronglySorted heavier_first order ∧
      binpack (insertionSort_func less) tied_metas 2 (mkWorld [] []) = (w', Ok buckets) ∧
      greedy (replicate 2 (mkFileBucket 0 ∅)) order buckets.
Proof.
  split.
  { eexists _, _. split; [vm_compute; reflexivity|]. split; by vm_compute. }
  intros (order & buckets & w' & Hperm & Hsorted & Hrun & Hg).
  apply (greedy_binpack_loop order) in Hg; [|simpl; lia].
  symmetry in Hperm. apply Permutation_length_2_inv in Hperm as [->| ->].
  - apply StronglySorted_inv in Hsorted as [_ H].
    apply Forall_cons in H as [[H|[_ H]] _]; simpl in H; lia.
  - assert (Hobs : ∀ r : Result (list FileBucket),
              Ok buckets = r →
              (if r is Ok bs then holds bs 1 0 else false) = holds buckets 1 0).
    { by intros r <-. }
    pose proof (Hobs _ (eq_sym Hg)) as H1.
    assert (H2 : (binpack (insertionSort_func less) tied_metas 2 (mkWorld [] [])).2
                 = Ok buckets) by (by rewrite Hrun).
    pose proof (Hobs _ (eq_sym H2)) as H3.
    rewrite <- H3 in H1. vm_compute in H1. done.
Qed.

(** The contract of [sort.Slice] does not fix the order of ties on the output
    of [scan] either: sorting the reversed slice meets it and puts ordinal 2
    before ordinal 1. *)
Lemma SliceContract_reversed_ties :
  SliceContract (λ l, insertionSort_func less (rev l)) ∧
  insertionSort_func less (rev [mkLineMeta 1 5; mkLineMeta 2 5]) =
    [mkLineMeta 2 5; mkLineMeta 1 5].
Proof.
  split; [|done]. intros l.
  destruct (insertionSort_contract (rev l)) as [Hperm Hsorted].
  split; [|done]. by rewrite Hperm, <- Permutation_rev.
Qed.

(** C5, amended: for every metadata sequence and every bucket count B >= 1,
    the sum of the totals of the B buckets is congruent modulo 2^64 to the
    sum of the weights of the metas (totals are 64-bit and wrap), and the two
    sums are equal when no weight is negative and the weights add up to at
    most 2^63 - 1. *)
Theorem binpack_total_weight sort_Slice metas bucketsN w :
  SliceContract sort_Slice →
  1 ≤ bucketsN →
  ∃ w' buckets,
    binpack sort_Slice metas bucketsN w = (w', Ok buckets) ∧
    sum_TotalSize buckets `mod` 2 ^ 64 = sum_Size metas `mod` 2 ^ 64 ∧
    (Forall (λ m, 0 ≤ Size m) metas → sum_Size metas ≤ Int64.max →
     sum_TotalSize buckets = sum_Size metas).
Proof.
  intros Hsort HB.
  destruct (binpack_ok sort_Slice metas bucketsN w HB) as (buckets & Hrun & Hg & _).
  destruct (Hsort metas) as [Hperm _].
  eexists _, buckets. split; [exact Hrun|]. split.
  - destruct (greedy_sum_wrap _ _ _ Hg) as [k Hk].
    rewrite Hk, sum_TotalSize_replicate, (sum_Size_perm _ _ Hperm).
    rewrite Z.add_0_l, Z.mul_comm. apply Z_mod_plus_full.
  - intros Hpos Hmax.
    rewrite (greedy_sum_exact _ _ _ Hg).
    + by rewrite sum_TotalSize_replicate, (sum_Size_perm _ _ Hperm).
    + by apply Forall_replicate.
    + by rewrite Hperm.
    + by rewrite sum_TotalSize_replicate, (sum_Size_perm _ _ Hperm).
Qed.

Lemma binpack_total_weight_witness :
  SliceContract (insertionSort_func less) ∧ 1 ≤ 2 ∧
  ∃ w' buckets,
    binpack (insertionSort_func less) tied_metas 2 (mkWorld [] []) = (w', Ok buckets) ∧
    sum_TotalSize buckets `mod` 2 ^ 64 = sum_Size tied_metas `mod` 2 ^ 64 ∧
    (Forall (λ m, 0 ≤ Size m) tied_metas → sum_Size tied_metas ≤ Int64.max →
     sum_TotalSize buckets = sum_Size tied_metas).
Proof.
  split; [apply insertionSort_contract|]. split; [lia|].
  apply (binpack_total_weight (insertionSort_func less) tied_metas 2
           (mkWorld [] []) insertionSort_contract).
  lia.
Defined.

(** C5, as stated, fails: two records of weight 2^62 in one bucket give the
    total -2^63, while the weights add up to 2^63. *)
Lemma binpack_total_weight_overflow :
  ∃ w' buckets,
    binpack (insertionSort_func less) huge_metas 1 (mkWorld [] []) = (w', Ok buckets) ∧
    sum_TotalSize buckets = - 2 ^ 63 ∧
    sum_Size huge_metas = 2 ^ 63 ∧
    sum_TotalSize buckets ≠ sum_Size huge_metas.
Proof.
  eexists _, _. split; [vm_compute; reflexivity|].
  split; [by vm_compute|]. split; [by vm_compute|]. by vm_compute.
Qed.

(** C6: for every metadata sequence with pairwise distinct ordinals and every
    bucket count B >= 1, the partitioner returns B buckets and every ordinal
    of the sequence is a member of exactly one of them. *)
Theorem binpack_partition sort_Slice metas bucketsN w :
  SliceContract sort_Slice →
  NoDup (LineNumber <$> metas) →
  1 ≤ bucketsN →
  ∃ w' buckets,
    binpack sort_Slice metas bucketsN w = (w', Ok buckets) ∧
    length buckets = Z.to_nat bucketsN ∧
    ∀ meta, meta ∈ metas →
      ∃ i, member_at buckets (LineNumber meta) i ∧
           ∀ j, member_at buckets (LineNumber meta) j → j = i.
Proof.
  intros Hsort Hnd HB.
  destruct (binpack_members sort_Slice metas bucketsN w Hsort Hnd HB)
    as (w' & buckets & Hrun & Hlen & Hdisj & Hcover).
  exists w', buckets. split; [done|]. split; [done|].
  intros meta Hmeta.
  destruct (proj2 (Hcover (LineNumber meta))) as [i Hi].
  { by apply list_elem_of_fmap_2. }
  exists i. split; [done|]. intros j Hj. by apply (Hdisj (LineNumber meta)).
Qed.

Lemma binpack_partition_witness :
  SliceContract (insertionSort_func less) ∧
  NoDup (LineNumber <$> tied_metas) ∧ 1 ≤ 2 ∧
  ∃ w' buckets,
    binpack (insertionSort_func less) tied_metas 2 (mkWorld [] []) = (w', Ok buckets) ∧
    length buckets = Z.to_nat 2 ∧
    ∀ meta, meta ∈ tied_metas →
      ∃ i, member_at buckets (LineNumber meta) i ∧
           ∀ j, member_at buckets (LineNumber meta) j → j = i.
Proof.
  assert (Hnd : NoDup (LineNumber <$> tied_metas)).
  { simpl. apply NoDup_cons. split; [rewrite list_elem_of_singleton; lia|].
    apply NoDup_singleton. }
  split; [apply insertionSort_contract|]. split; [exact Hnd|]. split; [lia|].
  apply (binpack_partition (insertionSort_func less) tied_metas 2
           (mkWorld [] []) insertionSort_contract Hnd).
  lia.
Defined.

(** ** Bucket counts below one *)

Lemma scan_loop_created rs :
  ∀ line metas w, created (scan_loop rs line metas w).1 = created w.
Proof.
  induction rs as [|rec rs IH]; intros line metas w; simpl; [done|].
  destruct (rec !! 2%nat); [|done].
  unfold bind, when. destruct (_ =? 0); simpl; by rewrite IH.
Qed.

Lemma scan_created input w : created (scan input w).1 = created w.
Proof.
  unfold scan, bind, print. simpl. destruct input as [|h rs]; [done|].
  pose proof (scan_loop_created rs 1 []
                (mkWorld (stdout w ++ [MetaScanStart]) (created w))) as H.
  destruct (scan_loop _ _ _ _) as [w1 [metas|e]]; simpl in *; done.
Qed.

Lemma write_loop_created lineToBucket rs :
  ∀ lineNum writers w,
  created (write_loop lineToBucket rs lineNum writers w).1 = created w.
Proof.
  induction rs as [|rec rs IH]; intros lineNum writers w; simpl; [done|].
  destruct (route _ _ _); unfold bind, when, print, abort; simpl.
  - destruct (_ =? 0); simpl; by rewrite IH.
  - by rewrite IH.
  - done.
Qed.

Lemma write_loop_stdout lineToBucket rs :
  ∀ lineNum writers w,
  ∃ out, stdout (write_loop lineToBucket rs lineNum writers w).1 = stdout w ++ out.
Proof.
  induction rs as [|rec rs IH]; intros lineNum writers w; simpl.
  - exists []. by rewrite app_nil_r.
  - destruct (route _ _ _); unfold bind, when, print, abort; simpl.
    + destruct (_ =? 0); simpl.
      * edestruct IH as [out ->]. simpl. rewrite <- app_assoc. eauto.
      * apply IH.
    + edestruct IH as [out ->]. simpl. rewrite <- app_assoc. eauto.
    + eauto.
Qed.

Lemma write_stdout input prefix buckets w :
  ∃ out, stdout (write input prefix buckets w).1 = stdout w ++ out.
Proof.
  unfold write, write_along, bind, print. simpl. rewrite create_all_ok.
  cbn [stdout created].
  destruct (write_loop_stdout (lineToBucket_loop 0 ((λ b, elements (LineNums b)) <$> buckets) ∅)
              input 0 (replicate (length buckets) [])
              (mkWorld (stdout w ++ [WriteStart])
                 (created w ++ imap (λ i _, fileName prefix i) buckets)))
    as [out Hout].
  destruct (write_loop _ _ _ _ _) as [w3 [files|e]]; simpl in *; rewrite Hout;
    rewrite <- !app_assoc; eauto.
Qed.

Lemma binpack_below_one sort_Slice metas bucketsN w :
  SliceContract sort_Slice →
  bucketsN ≤ 0 →
  binpack sort_Slice metas bucketsN w =
    if bucketsN <? 0
    then (mkWorld (stdout w ++ [BinpackSorting]) (created w),
          Aborted PanicMakeSliceLen)
    else if metas is []
         then (mkWorld (stdout w ++ [BinpackSorting; BinpackFinished]) (created w),
               Ok [])
         else (mkWorld (stdout w ++ [BinpackSorting]) (created w),
               Aborted (PanicIndexOutOfRange 0 0)).
Proof.
  intros Hsort HB. unfold binpack, bind, print, print_all, abort, lift. simpl.
  destruct (Z.ltb_spec bucketsN 0) as [Hneg|Hzero]; [done|].
  assert (bucketsN = 0) as -> by lia. simpl.
  destruct (Hsort metas) as [Hperm _].
  destruct metas as [|meta metas].
  - apply Permutation_nil_r in Hperm as ->. simpl.
    by rewrite app_nil_r, <- app_assoc.
  - destruct (sort_Slice (meta :: metas)) as [|meta' metas'] eqn:Hs.
    + by apply Permutation_nil_cons in Hperm.
    + done.
Qed.

(** C3, amended: with a bucket count below zero the partitioner panics when
    it allocates the buckets; with bucket count zero it panics at
    [buckets[0]] when there is a record and returns no bucket when there is
    none; in every case with B <= 0 the command creates no output file, and
    on a well-formed source it has scanned the whole input and begun to sort
    by then (the program has no check of the bucket count of its own). *)
Theorem split_below_one_bucket sort_Slice metas bucketsN w :
  SliceContract sort_Slice →
  bucketsN ≤ 0 →
  binpack sort_Slice metas bucketsN w =
    (if bucketsN <? 0
     then (mkWorld (stdout w ++ [BinpackSorting]) (created w),
           Aborted PanicMakeSliceLen)
     else if metas is []
          then (mkWorld (stdout w ++ [BinpackSorting; BinpackFinished]) (created w),
                Ok [])
          else (mkWorld (stdout w ++ [BinpackSorting]) (created w),
                Aborted (PanicIndexOutOfRange 0 0))) ∧
  ∀ input prefix,
    created (run (splitCmd sort_Slice input bucketsN prefix)).1 = [] ∧
    ∀ hdr data,
      input = hdr :: data →
      Forall (λ rec : record, is_Some (rec !! 2%nat)) data →
      ∃ out, stdout (run (splitCmd sort_Slice input bucketsN prefix)).1 =
               scan_stdout (length data) ++ BinpackSorting :: out.
Proof.
  intros Hsort HB. split; [by apply binpack_below_one|].
  intros input prefix. unfold run, splitCmd. split.
  - pose proof (scan_created input (mkWorld [] [])) as Hscan.
    unfold bind at 1.
    destruct (scan input _) as [w1 [ms|e]]; simpl in Hscan; [|done].
    pose proof (binpack_below_one sort_Slice ms bucketsN w1 Hsort HB) as Hbin.
    unfold bind at 1. rewrite Hbin.
    destruct (bucketsN <? 0); [done|]. destruct ms; [|done].
    unfold write, write_along. unfold bind, print at 1. simpl.
    pose proof (write_loop_created (lineToBucket_loop 0 [] ∅) input 0 []
                  (mkWorld ((stdout w1 ++ [BinpackSorting; BinpackFinished])
                            ++ [WriteStart]) (created w1))) as Hw.
    unfold ret at 1.
    destruct (write_loop _ _ _ _ _) as [w3 [files|e]]; simpl in *; congruence.
  - intros hdr data -> Hall.
    rewrite (bind_ok _ _ _ _ _ (scan_ok hdr data (mkWorld [] []) Hall)).
    unfold bind at 1. rewrite binpack_below_one by done.
    cbn [stdout created app].
    remember (scan_stdout (length data)) as S eqn:HS. clear HS.
    destruct (bucketsN <? 0); [by exists []|].
    destruct (imap meta_of data); [|by exists []].
    destruct (write_stdout (hdr :: data) prefix []
                (mkWorld (S ++ [BinpackSorting; BinpackFinished]) []))
      as [out Hout].
    unfold bind, print, ret.
    destruct (write _ _ _ _) as [w3 [files|e]]; simpl in *; rewrite Hout.
    + exists (BinpackFinished :: out ++ [SplitDone bucketsN]).
      by rewrite <- !app_assoc.
    + exists (BinpackFinished :: out). by rewrite <- !app_assoc.
Qed.

Lemma split_below_one_bucket_witness :
  SliceContract (insertionSort_func less) ∧ -1 ≤ 0 ∧
  binpack (insertionSort_func less) tied_metas (-1) (mkWorld [] []) =
    (mkWorld [BinpackSorting] [], Aborted PanicMakeSliceLen) ∧
  ∀ input prefix,
    created (run (splitCmd (insertionSort_func less) input (-1) prefix)).1 = [] ∧
    ∀ hdr data,
      input = hdr :: data →
      Forall (λ rec : record, is_Some (rec !! 2%nat)) data →
      ∃ out, stdout (run (splitCmd (insertionSort_func less) input (-1) prefix)).1 =
               scan_stdout (length data) ++ BinpackSorting :: out.
Proof.
  split; [apply insertionSort_contract|]. split; [lia|].
  apply (split_below_one_bucket (insertionSort_func less) tied_metas (-1)
           (mkWorld [] []) insertionSort_contract).
  lia.
Defined.

(** C3, as stated, fails: with bucket count 0 and no record the partitioner
    returns normally, and the command on a source holding a header only ends
    normally too, having scanned the input. *)
Lemma split_zero_buckets_returns :
  run (binpack (insertionSort_func less) [] 0) =
    (mkWorld [BinpackSorting; BinpackFinished] [], Ok []) ∧
  run (splitCmd (insertionSort_func less) header_only 0 "out_") =
    (mkWorld [MetaScanStart; MetaScanFinished 0; BinpackSorting;
              BinpackFinished; WriteStart; WarnLineNotFound 1; WriteDone;
              SplitDone 0] [], Ok []).
Proof. split; by vm_compute. Qed.

(** ** Weight fields that do not parse *)

(** C4, amended: on every input whose data records all have a third field,
    the scan returns one meta per data record, with ordinals 1..N in input
    order, whatever the weight fields hold, and prints nothing about them
    (its output depends on the number of records only); a record whose
    weight field fails to parse gets the value [ParseInt] returns with the
    error as weight, 0 for a syntax error, and, for every bucket count
    B >= 1, is a member of exactly one bucket like every other record. *)
Theorem scan_keeps_unparsable_weights sort_Slice hdr data bucketsN w w1 :
  SliceContract sort_Slice →
  Forall (λ rec : record, is_Some (rec !! 2%nat)) data →
  1 ≤ bucketsN →
  scan (hdr :: data) w =
    (mkWorld (stdout w ++ scan_stdout (length data)) (created w),
     Ok (imap meta_of data)) ∧
  (∀ i rec, data !! i = Some rec →
     (strconv.ParseInt (weight_field rec)).2 = Some strconv.ErrSyntax →
     meta_of i rec = mkLineMeta (Z.of_nat i + 1) 0) ∧
  ∃ w2 buckets,
    binpack sort_Slice (imap meta_of data) bucketsN w1 = (w2, Ok buckets) ∧
    ∀ i rec, data !! i = Some rec →
      ∃ j, member_at buckets (Z.of_nat i + 1) j ∧
           ∀ j', member_at buckets (Z.of_nat i + 1) j' → j' = j.
Proof.
  intros Hsort Hall HB. split; [by apply scan_ok|]. split.
  - intros i rec _ Herr. unfold meta_of. by rewrite (ParseInt_syntax _ Herr).
  - destruct (binpack_members sort_Slice (imap meta_of data) bucketsN w1 Hsort
                (meta_of_NoDup data) HB)
      as (w2 & buckets & Hrun & _ & Hdisj & Hcover).
    exists w2, buckets. split; [done|]. intros i rec Hi.
    destruct (proj2 (Hcover (Z.of_nat i + 1))) as [j Hj].
    { apply list_elem_of_fmap. exists (meta_of i rec). split; [done|].
      apply list_elem_of_lookup. exists i.
      by rewrite list_lookup_imap, Hi. }
    exists j. split; [done|]. intros j' Hj'. by apply (Hdisj (Z.of_nat i + 1)).
Qed.

Lemma scan_keeps_unparsable_weights_witness :
  SliceContract (insertionSort_func less) ∧
  Forall (λ rec : record, is_Some (rec !! 2%nat)) [row_unparsable] ∧
  1 ≤ 1 ∧
  scan unparsable_row (mkWorld [] []) =
    (mkWorld ([] ++ scan_stdout 1) [], Ok (imap meta_of [row_unparsable])) ∧
  (∀ i rec, [row_unparsable] !! i = Some rec →
     (strconv.ParseInt (weight_field rec)).2 = Some strconv.ErrSyntax →
     meta_of i rec = mkLineMeta (Z.of_nat i + 1) 0) ∧
  ∃ w2 buckets,
    binpack (insertionSort_func less) (imap meta_of [row_unparsable]) 1
      (mkWorld [] []) = (w2, Ok buckets) ∧
    ∀ i rec, [row_unparsable] !! i = Some rec →
      ∃ j, member_at buckets (Z.of_nat i + 1) j ∧
           ∀ j', member_at buckets (Z.of_nat i + 1) j' → j' = j.
Proof.
  assert (Hall : Forall (λ rec : record, is_Some (rec !! 2%nat)) [row_unparsable]).
  { apply Forall_singleton. by eexists. }
  split; [apply insertionSort_contract|]. split; [exact Hall|]. split; [lia|].
  apply (scan_keeps_unparsable_weights (insertionSort_func less) header
           [row_unparsable] 1 (mkWorld [] []) (mkWorld [] [])
           insertionSort_contract Hall).
  lia.
Defined.

(** C4, as stated, fails: a record whose weight field is [abc] is scanned
    without any diagnostic, gets weight 0 and is put into bucket 0. *)
Lemma scan_unparsable_row_kept :
  (strconv.ParseInt (weight_field row_unparsable)).2 = Some strconv.ErrSyntax ∧
  run (scan unparsable_row) =
    (mkWorld [MetaScanStart; MetaScanFinished 1] [], Ok [mkLineMeta 1 0]) ∧
  ∃ w buckets,
    run (binpack (insertionSort_func less) [mkLineMeta 1 0] 1) = (w, Ok buckets) ∧
    holds buckets 1 0 = true.
Proof.
  split; [by vm_compute|]. split; [by vm_compute|].
  eexists _, _. split; [vm_compute; reflexivity|]. by vm_compute.
Qed.

(** ** The write pass *)



(** C10: whatever the order in which the members of the buckets are visited,
    every value of the index built at the start of the write pass lies in
    [0, number of buckets): no line number is routed out of range, and the
    write pass returns. *)
Theorem lineToBucket_in_range orders buckets :
  Forall2 range_order orders buckets →
  (∀ lineNum bucketIndex,
     lineToBucket_loop 0 orders ∅ !! lineNum = Some bucketIndex →
     0 ≤ bucketIndex < Z.of_nat (length buckets)) ∧
  (∀ lineNum bucketIndex,
     route (lineToBucket_loop 0 orders ∅) (length buckets) lineNum ≠ Fatal bucketIndex) ∧
  (∀ input prefix w,
     ∃ w' files, write_along orders input prefix buckets w = (w', Ok files)).
Proof.
  intros Horders.
  assert (Hrange : ∀ lineNum bucketIndex,
            lineToBucket_loop 0 orders ∅ !! lineNum = Some bucketIndex →
            0 ≤ bucketIndex < Z.of_nat (length buckets)).
  { intros lineNum bucketIndex Hk.
    apply lineToBucket_loop_bound in Hk as [Hk|Hk]; [done|].
    rewrite <- (Forall2_length _ _ _ Horders). lia. }
  split; [done|]. split; [by apply route_in_range|].
  intros input prefix w. unfold write_along, bind, print. simpl.
  rewrite create_all_ok. cbn [stdout created].
  destruct (write_loop_ok (lineToBucket_loop 0 orders ∅) input 0
              (replicate (length buckets) [])
              (mkWorld (stdout w ++ [WriteStart])
                 (created w ++ imap (λ i _, fileName prefix i) buckets)))
    as (w' & files & Hrun & _).
  { rewrite length_replicate. by apply route_in_range. }
  rewrite Hrun. unfold ret. eauto.
Qed.

Lemma lineToBucket_in_range_witness :
  let buckets := [mkFileBucket 5 {[2]}; mkFileBucket 5 {[1]}] in
  Forall2 range_order [[2]; [1]] buckets ∧
  (∀ lineNum bucketIndex,
     lineToBucket_loop 0 [[2]; [1]] ∅ !! lineNum = Some bucketIndex →
     0 ≤ bucketIndex < Z.of_nat (length buckets)) ∧
  (∀ lineNum bucketIndex,
     route (lineToBucket_loop 0 [[2]; [1]] ∅) (length buckets) lineNum ≠ Fatal bucketIndex) ∧
  (∀ input prefix w,
     ∃ w' files, write_along [[2]; [1]] input prefix buckets w = (w', Ok files)).
Proof.
  intros buckets.
  assert (Horders : Forall2 range_order [[2]; [1]] buckets).
  { repeat constructor; unfold range_order; simpl; by rewrite elements_singleton. }
  split; [exact Horders|].
  exact (lineToBucket_in_range [[2]; [1]] buckets Horders).
Defined.

(** ** The command *)

(** On a source whose data rows all have a third field and with at least one
    bucket, the command returns: its files are those of [actual_file] for the
    buckets of the partitioner. *)
Lemma split_files sort_Slice hdr data bucketsN prefix :
  SliceContract sort_Slice →
  Forall (λ rec : record, is_Some (rec !! 2%nat)) data →
  1 ≤ bucketsN →
  ∃ w1 w2 buckets w,
    scan (hdr :: data) (mkWorld [] []) = (w1, Ok (imap meta_of data)) ∧
    binpack sort_Slice (imap meta_of data) bucketsN w1 = (w2, Ok buckets) ∧
    (∀ k, (∃ i, member_at buckets k i) ↔ k ∈ LineNumber <$> imap meta_of data) ∧
    run (splitCmd sort_Slice (hdr :: data) bucketsN prefix) =
      (w, Ok (actual_file (hdr :: data) <$> buckets)).
Proof.
  intros Hsort Hall HB.
  pose proof (scan_ok hdr data (mkWorld [] []) Hall) as Hscan.
  destruct (binpack_members sort_Slice (imap meta_of data) bucketsN
              (mkWorld ([] ++ scan_stdout (length data)) [])
              Hsort (meta_of_NoDup data) HB)
    as (w2 & buckets & Hbin & _ & Hdisj & Hcover).
  destruct (write_files buckets (hdr :: data) prefix w2 Hdisj) as [w3 Hwrite].
  eexists _, w2, buckets, _. split; [exact Hscan|]. split; [exact Hbin|].
  split; [done|].
  unfold run, splitCmd.
  rewrite (bind_ok _ _ _ _ _ Hscan), (bind_ok _ _ _ _ _ Hbin),
    (bind_ok _ _ _ _ _ Hwrite).
  done.
Qed.

(** The defect of the write pass in general: whenever the source has a data
    row, the file of the bucket that holds ordinal 1 starts with the header
    twice. *)
Lemma split_header_twice sort_Slice hdr row data bucketsN prefix :
  SliceContract sort_Slice →
  Forall (λ rec : record, is_Some (rec !! 2%nat)) (row :: data) →
  1 ≤ bucketsN →
  ∃ w files i rest,
    run (splitCmd sort_Slice (hdr :: row :: data) bucketsN prefix) = (w, Ok files) ∧
    files !! i = Some (hdr :: hdr :: rest).
Proof.
  intros Hsort Hall HB.
  destruct (split_files sort_Slice hdr (row :: data) bucketsN prefix Hsort Hall HB)
    as (w1 & w2 & buckets & w & _ & _ & Hcover & Hrun).
  destruct (proj2 (Hcover 1)) as (i & b & Hb & H1).
  { rewrite imap_cons, fmap_cons. apply list_elem_of_here. }
  eexists w, _, i, _. split; [exact Hrun|].
  rewrite list_lookup_fmap, Hb. simpl. unfold numbered.
  rewrite imap_cons, filter_cons. simpl.
  rewrite decide_True by done. reflexivity.
Qed.

(** Two runs of the command on [two_rows] with two buckets: one in which
    every record sent is received at once, one in which the writer goroutines
    only start to receive when the read loop has left. *)
Lemma two_rows_eager_run :
  split_run (insertionSort_func less) two_rows 2 "out_"
    [[header; header]; [header; row1]].
Proof. eapply splitCmd_split_run. vm_compute. reflexivity. Qed.

Lemma two_rows_late_run :
  split_run (insertionSort_func less) two_rows 2 "out_"
    [[header; header]; [header; row1]].
Proof.
  eexists _, _, _, _, [[1]; [2]], _, _.
  split; [vm_compute; reflexivity|].
  split; [vm_compute; reflexivity|].
  split.
  { repeat constructor; unfold range_order; simpl; by rewrite elements_singleton. }
  split; [vm_compute; reflexivity|].
  eexists. split; [|split; [|split; [reflexivity|]]].
  - unfold Conc.init, two_rows. simpl replicate.
    eapply rtc_l.
    { eapply (Conc.step_send _ header _ 0 _ _ _ 0%nat []);
        [by vm_compute|done|unfold Conc.chanCap; simpl; lia]. }
    eapply rtc_l.
    { eapply (Conc.step_send _ row1 _ _ _ _ _ 1%nat []);
        [by vm_compute|done|unfold Conc.chanCap; simpl; lia]. }
    eapply rtc_l.
    { eapply (Conc.step_skip _ row2); by vm_compute. }
    eapply rtc_l; [apply Conc.step_break|].
    eapply rtc_l.
    { eapply (Conc.step_writer _ _ _ _ _ _ _ 0%nat header []). done. }
    eapply rtc_l.
    { eapply (Conc.step_writer _ _ _ _ _ _ _ 1%nat row1 []). done. }
    apply rtc_refl.
  - split; [done|]. simpl. repeat constructor.
  - done.
Qed.

(** C9: for every input, bucket count and prefix, any two runs of the
    command that end normally, whatever the interleaving of the goroutines
    and the order in which maps are visited, leave the same contents in the
    output files. *)
Theorem split_run_deterministic sort_Slice input bucketsN prefix files1 files2 :
  split_run sort_Slice input bucketsN prefix files1 →
  split_run sort_Slice input bucketsN prefix files2 →
  files1 = files2.
Proof.
  intros H1 H2.
  apply split_run_splitCmd in H1 as [w1 H1], H2 as [w2 H2]. congruence.
Qed.

Lemma split_run_deterministic_witness :
  split_run (insertionSort_func less) two_rows 2 "out_"
    [[header; header]; [header; row1]] ∧
  [[header; header]; [header; row1]] = [[header; header]; [header; row1]].
Proof.
  split; [exact two_rows_eager_run|].
  exact (split_run_deterministic (insertionSort_func less) two_rows 2 "out_"
           _ _ two_rows_eager_run two_rows_late_run).
Defined.

(** C1, on the code: on a header and two data rows of sizes 10 and 1, with
    two buckets, the scan numbers the rows 1 and 2 and the partitioner puts
    ordinal 1 into bucket 0 and ordinal 2 into bucket 1, so that the files
    asked for are header, row 1 and header, row 2.  Every run of the command
    leaves header, header and header, row 1: the read loop of the write pass
    looks the header up as line 1 and each data row under the ordinal of the
    next one, and the last row is written nowhere. *)
Theorem split_two_rows_misrouted :
  ∃ w1 w2 buckets,
    run (scan two_rows) = (w1, Ok [mkLineMeta 1 10; mkLineMeta 2 1]) ∧
    binpack (insertionSort_func less) [mkLineMeta 1 10; mkLineMeta 2 1] 2 w1 =
      (w2, Ok buckets) ∧
    holds buckets 1 0 = true ∧ holds buckets 2 1 = true ∧
    expected_file two_rows <$> buckets = [[header; row1]; [header; row2]] ∧
    (run (splitCmd (insertionSort_func less) two_rows 2 "out_")).2 =
      Ok [[header; header]; [header; row1]] ∧
    ∀ files,
      split_run (insertionSort_func less) two_rows 2 "out_" files →
      files = [[header; header]; [header; row1]].
Proof.
  eexists _, _, _.
  split; [vm_compute; reflexivity|].
  split; [vm_compute; reflexivity|].
  split; [by vm_compute|]. split; [by vm_compute|].
  split; [by vm_compute|]. split; [by vm_compute|].
  intros files Hrun.
  apply split_run_splitCmd in Hrun as [w Hrun].
  apply (f_equal snd) in Hrun. vm_compute in Hrun. by simplify_eq.
Qed.

(** C7, on the code: on a header and one data row, with one bucket, every run
    of the command leaves a file that holds the header twice and not the
    data row: the header is written to every output first, as claimed, and
    is then routed once more as if it were the record of ordinal 1. *)
Theorem split_one_row_repeats_header :
  (run (splitCmd (insertionSort_func less) one_row 1 "out_")).2 =
    Ok [[header; header]] ∧
  (∀ files,
     split_run (insertionSort_func less) one_row 1 "out_" files →
     files = [[header; header]]) ∧
  occurrences header [header; header] = 2%nat.
Proof.
  split; [by vm_compute|]. split; [|by vm_compute].
  intros files Hrun.
  apply split_run_splitCmd in Hrun as [w Hrun].
  apply (f_equal snd) in Hrun. vm_compute in Hrun. by simplify_eq.
Qed.

(** * Further properties of the code *)

(** ** The partitioner: balance *)

Lemma TotalSize_assign_exact meta b :
  0 ≤ TotalSize b → 0 ≤ Size meta → TotalSize b + Size meta ≤ Int64.max →
  TotalSize (assign meta b) = TotalSize b + Size meta.
Proof.
  intros Hb Hm Hmax. simpl. apply wrap_id.
  unfold Int64.in_range, Int64.min, Int64.max in *. lia.
Qed.

Lemma sum_Size_nonneg metas : Forall (λ m, 0 ≤ Size m) metas → 0 ≤ sum_Size metas.
Proof. induction 1; simpl; lia. Qed.

(** As long as nothing overflows, no two totals are further apart than the
    largest weight. *)
Lemma greedy_balance W buckets metas buckets' :
  greedy buckets metas buckets' →
  Forall (λ m, 0 ≤ Size m ≤ W) metas →
  Forall (λ b, 0 ≤ TotalSize b) buckets →
  sum_TotalSize buckets + sum_Size metas ≤ Int64.max →
  (∀ i j bi bj, buckets !! i = Some bi → buckets !! j = Some bj →
                TotalSize bi - TotalSize bj ≤ W) →
  (∀ i j bi bj, buckets' !! i = Some bi → buckets' !! j = Some bj →
                TotalSize bi - TotalSize bj ≤ W).
Proof.
  induction 1 as [|buckets meta metas m b buckets' (Hm & Hmin & _) Hg IH];
    intros Hmetas Hpos Hmax Hbal; [done|].
  apply Forall_cons in Hmetas as [[Hmeta HW] Hmetas].
  pose proof (sum_TotalSize_bound _ _ _ Hpos Hm) as Hb.
  assert (Hsum : 0 ≤ sum_Size metas).
  { apply sum_Size_nonneg. eapply Forall_impl; [exact Hmetas|]. simpl. lia. }
  simpl in Hmax.
  assert (Hw : TotalSize (assign meta b) = TotalSize b + Size meta)
    by (apply TotalSize_assign_exact; lia).
  apply IH; [done| | |].
  - apply Forall_insert; [done|]. lia.
  - rewrite (sum_TotalSize_insert _ _ b) by done. lia.
  - intros i j bi bj Hi Hj.
    apply list_lookup_insert_Some in Hi as [(<- & <- & _)|[Hne Hi]];
      apply list_lookup_insert_Some in Hj as [(<- & <- & _)|[Hne' Hj]].
    + lia.
    + specialize (Hmin j bj Hj). lia.
    + specialize (Hbal i m bi b Hi Hm). lia.
    + by apply (Hbal i j).
Qed.

Lemma sum_TotalSize_lower c W buckets :
  (∀ b, b ∈ buckets → c ≤ TotalSize b + W) →
  Z.of_nat (length buckets) * c ≤ sum_TotalSize buckets + Z.of_nat (length buckets) * W.
Proof.
  induction buckets as [|b buckets IH]; intros Hall; simpl length; simpl sum_TotalSize.
  - lia.
  - pose proof (Hall b (list_elem_of_here _ _)).
    assert (Z.of_nat (length buckets) * c ≤
            sum_TotalSize buckets + Z.of_nat (length buckets) * W).
    { apply IH. intros b' Hb'. apply Hall. by apply list_elem_of_further. }
    lia.
Qed.

(** X1: when no weight is negative or above W and the weights add up to at
    most 2^63 - 1, the totals of any two buckets returned by the partitioner
    differ by at most W, and B times the total of any bucket is at most the
    sum of all weights plus B times W (no bucket is heavier than the average
    plus the largest weight). *)
Theorem binpack_balanced sort_Slice metas bucketsN W w :
  SliceContract sort_Slice →
  1 ≤ bucketsN →
  Forall (λ m, 0 ≤ Size m ≤ W) metas →
  sum_Size metas ≤ Int64.max →
  0 ≤ W →
  ∃ w' buckets,
    binpack sort_Slice metas bucketsN w = (w', Ok buckets) ∧
    (∀ bi bj, bi ∈ buckets → bj ∈ buckets → TotalSize bi - TotalSize bj ≤ W) ∧
    (∀ b, b ∈ buckets → bucketsN * TotalSize b ≤ sum_Size metas + bucketsN * W).
Proof.
  intros Hsort HB Hmetas Hmax HW.
  destruct (binpack_ok sort_Slice metas bucketsN w HB) as (buckets & Hrun & Hg & Hlen).
  destruct (Hsort metas) as [Hperm _].
  assert (Hbal : ∀ i j bi bj, buckets !! i = Some bi → buckets !! j = Some bj →
                              TotalSize bi - TotalSize bj ≤ W).
  { apply (greedy_balance W _ _ _ Hg).
    - by rewrite Hperm.
    - by apply Forall_replicate.
    - by rewrite sum_TotalSize_replicate, (sum_Size_perm _ _ Hperm).
    - intros i j bi bj Hi Hj.
      apply lookup_replicate in Hi as [-> _], Hj as [-> _]. simpl. lia. }
  assert (Hdiff : ∀ bi bj, bi ∈ buckets → bj ∈ buckets →
                           TotalSize bi - TotalSize bj ≤ W).
  { intros bi bj Hi Hj.
    apply list_elem_of_lookup in Hi as [i Hi], Hj as [j Hj]. by eapply Hbal. }
  eexists _, buckets. split; [exact Hrun|]. split; [exact Hdiff|].
  intros b Hb.
  pose proof (sum_TotalSize_lower (TotalSize b) W buckets) as Hlow.
  rewrite Hlen, Z2Nat.id in Hlow by lia.
  rewrite (greedy_sum_exact _ _ _ Hg) in Hlow.
  - rewrite sum_TotalSize_replicate, (sum_Size_perm _ _ Hperm) in Hlow.
    apply Hlow. intros bj Hbj. specialize (Hdiff b bj Hb Hbj). lia.
  - by apply Forall_replicate.
  - rewrite Hperm. eapply Forall_impl; [exact Hmetas|]. simpl. lia.
  - by rewrite sum_TotalSize_replicate, (sum_Size_perm _ _ Hperm).
Qed.

Lemma binpack_balanced_witness :
  SliceContract (insertionSort_func less) ∧ 1 ≤ 2 ∧
  Forall (λ m, 0 ≤ Size m ≤ 5) tied_metas ∧
  sum_Size tied_metas ≤ Int64.max ∧ 0 ≤ 5 ∧
  ∃ w' buckets,
    binpack (insertionSort_func less) tied_metas 2 (mkWorld [] []) = (w', Ok buckets) ∧
    (∀ bi bj, bi ∈ buckets → bj ∈ buckets → TotalSize bi - TotalSize bj ≤ 5) ∧
    (∀ b, b ∈ buckets → 2 * TotalSize b ≤ sum_Size tied_metas + 2 * 5).
Proof.
  assert (H1 : Forall (λ m, 0 ≤ Size m ≤ 5) tied_metas)
    by (repeat constructor; simpl; lia).
  assert (H2 : sum_Size tied_metas ≤ Int64.max) by (by vm_compute).
  split; [apply insertionSort_contract|]. split; [lia|]. split; [exact H1|].
  split; [exact H2|]. split; [lia|].
  apply (binpack_balanced (insertionSort_func less) tied_metas 2 5 (mkWorld [] [])
           insertionSort_contract); [lia|exact H1|exact H2|lia].
Defined.

(** ** The partitioner: no more records than buckets *)

Lemma lightest_first_empty singles r :
  Forall (λ b, 0 < TotalSize b) singles →
  lightest (singles ++ replicate (S r) (mkFileBucket 0 ∅)) (length singles)
           (mkFileBucket 0 ∅).
Proof.
  intros Hpos. split; [|split].
  - by rewrite lookup_app_r, Nat.sub_diag by lia.
  - intros j bj Hj. simpl.
    apply lookup_app_Some in Hj as [Hj|[_ Hj]].
    + apply (Forall_lookup_1 _ _ _ _ Hpos) in Hj. lia.
    + apply lookup_replicate in Hj as [-> _]. done.
  - intros j bj Hlt Hj. simpl.
    rewrite lookup_app_l in Hj by done.
    by apply (Forall_lookup_1 _ _ _ _ Hpos) in Hj.
Qed.

Lemma greedy_own_bucket metas :
  ∀ singles r buckets',
  greedy (singles ++ replicate r (mkFileBucket 0 ∅)) metas buckets' →
  Forall (λ b, 0 < TotalSize b) singles →
  Forall (λ m, 0 < Size m ≤ Int64.max) metas →
  (length metas ≤ r)%nat →
  buckets' = singles ++ (single <$> metas)
               ++ replicate (r - length metas) (mkFileBucket 0 ∅).
Proof.
  induction metas as [|meta metas IH]; intros singles r buckets' Hg Hpos Hmetas Hr.
  - inv Hg. simpl. by rewrite Nat.sub_0_r.
  - inv Hg. apply Forall_cons in Hmetas as [[Hmeta Hmax] Hmetas].
    destruct r as [|r]; [simpl in Hr; lia|].
    destruct (lightest_unique _ _ _ _ _ H2 (lightest_first_empty singles r Hpos))
      as [-> ->].
    assert (Hassign : assign meta (mkFileBucket 0 ∅) = single meta).
    { unfold assign, single. simpl. f_equal.
      - apply wrap_id. unfold Int64.in_range, Int64.min, Int64.max in *. lia.
      - by rewrite (right_id_L ∅ (∪)). }
    rewrite Hassign in H4.
    replace (<[length singles := single meta]>
               (singles ++ replicate (S r) (mkFileBucket 0 ∅)))
      with ((singles ++ [single meta]) ++ replicate r (mkFileBucket 0 ∅)) in H4.
    + apply IH in H4; [|apply Forall_app; split; [done|]|done|simpl in Hr; lia].
      * rewrite H4, <- app_assoc. simpl. done.
      * apply Forall_singleton. simpl. lia.
    + rewrite insert_app_r_alt, Nat.sub_diag by lia. simpl.
      by rewrite <- app_assoc.
Qed.

(** X2: when every weight is positive (and an int64) and there are at least
    as many buckets as records, the partitioner gives the k-th record of the
    sorted order bucket k for itself and leaves the remaining buckets
    empty. *)
Theorem binpack_one_record_per_bucket sort_Slice metas bucketsN w :
  SliceContract sort_Slice →
  Forall (λ m, 0 < Size m ≤ Int64.max) metas →
  Z.of_nat (length metas) ≤ bucketsN →
  1 ≤ bucketsN →
  ∃ w',
    binpack sort_Slice metas bucketsN w =
      (w', Ok ((single <$> sort_Slice metas) ++
               replicate (Z.to_nat bucketsN - length metas) (mkFileBucket 0 ∅))).
Proof.
  intros Hsort Hmetas Hlen HB.
  destruct (binpack_ok sort_Slice metas bucketsN w HB) as (buckets & Hrun & Hg & _).
  destruct (Hsort metas) as [Hperm _].
  apply (greedy_own_bucket _ [] (Z.to_nat bucketsN)) in Hg.
  - eexists. rewrite Hrun. f_equal. f_equal. rewrite Hg. simpl.
    by rewrite (Permutation_length Hperm).
  - constructor.
  - by rewrite Hperm.
  - rewrite (Permutation_length Hperm). lia.
Qed.

Lemma binpack_one_record_per_bucket_witness :
  SliceContract (insertionSort_func less) ∧
  Forall (λ m, 0 < Size m ≤ Int64.max) tied_metas ∧
  Z.of_nat (length tied_metas) ≤ 3 ∧ 1 ≤ 3 ∧
  ∃ w',
    binpack (insertionSort_func less) tied_metas 3 (mkWorld [] []) =
      (w', Ok ((single <$> insertionSort_func less tied_metas) ++
               replicate (Z.to_nat 3 - length tied_metas) (mkFileBucket 0 ∅))).
Proof.
  assert (H1 : Forall (λ m, 0 < Size m ≤ Int64.max) tied_metas).
  { repeat constructor; by vm_compute. }
  split; [apply insertionSort_contract|]. split; [exact H1|].
  split; [simpl; lia|]. split; [lia|].
  apply (binpack_one_record_per_bucket (insertionSort_func less) tied_metas 3
           (mkWorld [] []) insertionSort_contract H1); simpl; lia.
Defined.

(** ** The partitioner: the line counts of the summary *)

Lemma sum_lines_insert buckets m b b' :
  buckets !! m = Some b →
  (sum_lines (<[m := b']> buckets) + size (LineNums b) =
   sum_lines buckets + size (LineNums b'))%nat.
Proof.
  revert m. induction buckets as [|b0 buckets IH]; intros [|m] Hm;
    simplify_eq/=; [lia|].
  specialize (IH m Hm). lia.
Qed.

Lemma sum_lines_replicate n : sum_lines (replicate n (mkFileBucket 0 ∅)) = 0%nat.
Proof. induction n as [|n IH]; simpl; [done|]. by rewrite IH. Qed.

Lemma greedy_line_counts buckets metas buckets' :
  greedy buckets metas buckets' →
  NoDup (LineNumber <$> metas) →
  (∀ k i, member_at buckets k i → k ∉ LineNumber <$> metas) →
  sum_lines buckets' = (sum_lines buckets + length metas)%nat.
Proof.
  induction 1 as [|buckets meta metas m b buckets' (Hm & _) Hg IH];
    intros Hnd Hfresh; [simpl; lia|].
  rewrite fmap_cons in Hnd. apply NoDup_cons in Hnd as [Hnew Hnd].
  rewrite IH; [|done|].
  - pose proof (sum_lines_insert buckets m b (assign meta b) Hm) as Hins.
    assert (Hout : LineNumber meta ∉ LineNums b).
    { intros Hin. apply (Hfresh (LineNumber meta) m); [by exists b|].
      rewrite fmap_cons. apply list_elem_of_here. }
    simpl in Hins. rewrite size_union, size_singleton in Hins by set_solver.
    simpl. lia.
  - intros k i Hk Hin. apply (member_at_assign _ _ _ _ _ _ Hm) in Hk.
    destruct Hk as [Hk|[-> ->]]; [|done].
    apply (Hfresh k i Hk). rewrite fmap_cons. by apply list_elem_of_further.
Qed.

(** X3: for records with pairwise distinct ordinals and B >= 1, the line
    counts the partitioner prints in its bucket summary add up to the number
    of records. *)
Theorem binpack_line_counts sort_Slice metas bucketsN w :
  SliceContract sort_Slice →
  NoDup (LineNumber <$> metas) →
  1 ≤ bucketsN →
  ∃ w' buckets,
    binpack sort_Slice metas bucketsN w = (w', Ok buckets) ∧
    stdout w' = stdout w ++ [BinpackSorting; BinpackFinished] ++ summary buckets ∧
    sum_lines buckets = length metas.
Proof.
  intros Hsort Hnd HB.
  destruct (binpack_ok sort_Slice metas bucketsN w HB) as (buckets & Hrun & Hg & _).
  destruct (Hsort metas) as [Hperm _].
  eexists _, buckets. split; [exact Hrun|]. split; [done|].
  rewrite (greedy_line_counts _ _ _ Hg).
  - by rewrite sum_lines_replicate, (Permutation_length Hperm).
  - by rewrite Hperm.
  - intros k i Hk. by apply member_at_replicate in Hk.
Qed.

Lemma binpack_line_counts_witness :
  SliceContract (insertionSort_func less) ∧
  NoDup (LineNumber <$> tied_metas) ∧ 1 ≤ 2 ∧
  ∃ w' buckets,
    binpack (insertionSort_func less) tied_metas 2 (mkWorld [] []) = (w', Ok buckets) ∧
    stdout w' = [] ++ [BinpackSorting; BinpackFinished] ++ summary buckets ∧
    sum_lines buckets = length tied_metas.
Proof.
  assert (Hnd : NoDup (LineNumber <$> tied_metas)).
  { simpl. apply NoDup_cons. split; [rewrite list_elem_of_singleton; lia|].
    apply NoDup_singleton. }
  split; [apply insertionSort_contract|]. split; [exact Hnd|]. split; [lia|].
  apply (binpack_line_counts (insertionSort_func less) tied_metas 2
           (mkWorld [] []) insertionSort_contract Hnd).
  lia.
Defined.

(** ** scan: when it returns *)

Lemma scan_loop_short pre :
  ∀ rec post line metas w,
  Forall (λ rec : record, is_Some (rec !! 2%nat)) pre →
  rec !! 2%nat = None →
  (scan_loop (pre ++ rec :: post) line metas w).2 =
    Aborted (PanicIndexOutOfRange 2 (length rec)).
Proof.
  induction pre as [|r pre IH]; intros rec post line metas w Hpre Hrec.
  - simpl. by rewrite Hrec.
  - apply Forall_cons in Hpre as [[field Hfield] Hpre].
    cbn [app scan_loop]. rewrite Hfield. unfold bind, when.
    destruct (_ =? 0); simpl; by apply IH.
Qed.

Lemma first_short_record (rs : list record) :
  ¬ Forall (λ rec : record, is_Some (rec !! 2%nat)) rs →
  ∃ pre rec post,
    rs = pre ++ rec :: post ∧
    Forall (λ rec : record, is_Some (rec !! 2%nat)) pre ∧
    rec !! 2%nat = None.
Proof.
  induction rs as [|r rs IH]; intros Hnot.
  - destruct Hnot. constructor.
  - destruct (r !! 2%nat) as [field|] eqn:Hr.
    + destruct IH as (pre & rec & post & -> & Hpre & Hrec).
      { intros Hall. apply Hnot. constructor; [by rewrite Hr|done]. }
      exists (r :: pre), rec, post. split; [done|]. split; [|done].
      constructor; [by rewrite Hr|done].
    + exists [], r, rs. split; [done|]. split; [constructor|done].
Qed.

(** X4: the scan returns exactly when the source has a header and every data
    record has at least three fields.  On a source without any record it
    panics on the read error; at the first data record with fewer than three
    fields it panics with an index out of range. *)
Theorem scan_returns_iff src w :
  ((∃ w' metas, scan src w = (w', Ok metas)) ↔
   src ≠ [] ∧ Forall (λ rec : record, is_Some (rec !! 2%nat)) (tail src)) ∧
  (src = [] → (scan src w).2 = Aborted PanicErr) ∧
  (∀ hdr pre rec post,
     src = hdr :: pre ++ rec :: post →
     Forall (λ rec : record, is_Some (rec !! 2%nat)) pre →
     rec !! 2%nat = None →
     (scan src w).2 = Aborted (PanicIndexOutOfRange 2 (length rec))).
Proof.
  assert (Hshort : ∀ hdr pre rec post,
            src = hdr :: pre ++ rec :: post →
            Forall (λ rec : record, is_Some (rec !! 2%nat)) pre →
            rec !! 2%nat = None →
            (scan src w).2 = Aborted (PanicIndexOutOfRange 2 (length rec))).
  { intros hdr pre rec post -> Hpre Hrec. unfold scan, bind, print. simpl.
    pose proof (scan_loop_short pre rec post 1 []
                  (mkWorld (stdout w ++ [MetaScanStart]) (created w)) Hpre Hrec) as H.
    destruct (scan_loop _ _ _ _) as [w1 [metas|e]]; simpl in *; congruence. }
  split; [|split; [by intros ->|exact Hshort]].
  split.
  - intros (w' & metas & Hrun). destruct src as [|hdr rs]; [done|].
    split; [done|]. simpl.
    destruct (decide (Forall (λ rec : record, is_Some (rec !! 2%nat)) rs))
      as [Hall|Hnot]; [done|].
    apply first_short_record in Hnot as (pre & rec & post & -> & Hpre & Hrec).
    specialize (Hshort hdr pre rec post eq_refl Hpre Hrec).
    rewrite Hrun in Hshort. done.
  - intros [Hne Hall]. destruct src as [|hdr rs]; [done|].
    rewrite (scan_ok hdr rs w Hall). eauto.
Qed.

(** ** The index of the write pass *)

Lemma member_at_cons b buckets k i :
  member_at (b :: buckets) k (S i) ↔ member_at buckets k i.
Proof. done. Qed.

Lemma last_member buckets k :
  (∃ i, member_at buckets k i) →
  ∃ i, member_at buckets k i ∧ ∀ j, (i < j)%nat → ¬ member_at buckets k j.
Proof.
  induction buckets as [|b buckets IH]; intros [i Hi].
  - by destruct Hi as (b & Hb & _).
  - destruct (decide (Exists (λ b', k ∈ LineNums b') buckets)) as [Hex|Hnone].
    + destruct IH as (i' & Hi' & Hlast).
      { apply Exists_exists in Hex as (b' & Hin & Hk).
        apply list_elem_of_lookup in Hin as [j Hj]. exists j. by exists b'. }
      exists (S i'). split; [done|].
      intros [|j] Hlt; [lia|]. rewrite member_at_cons. apply Hlast. lia.
    + assert (Hrest : ∀ j, ¬ member_at buckets k j).
      { intros j (b' & Hb' & Hk). apply Hnone, Exists_exists. exists b'.
        split; [by eapply list_elem_of_lookup_2|done]. }
      destruct i as [|i]; [|by apply Hrest in Hi].
      exists 0%nat. split; [done|]. intros [|j] Hlt; [lia|].
      rewrite member_at_cons. apply Hrest.
Qed.

(** X5: the index built at the start of the write pass has an entry for a
    line number exactly when some bucket holds it, and the entry is the index
    of the last bucket that does. *)
Theorem lineToBucket_lookup buckets k :
  (lineToBucket buckets !! k = None ↔ ∀ i, ¬ member_at buckets k i) ∧
  (∀ i, member_at buckets k i →
        (∀ j, (i < j)%nat → ¬ member_at buckets k j) →
        lineToBucket buckets !! k = Some (Z.of_nat i)).
Proof.
  assert (Hlast : ∀ i, member_at buckets k i →
            (∀ j, (i < j)%nat → ¬ member_at buckets k j) →
            lineToBucket buckets !! k = Some (Z.of_nat i)).
  { intros i (b & Hb & Hk) Hmax. unfold lineToBucket.
    rewrite (lineToBucket_loop_last _ 0 ∅ k i (elements (LineNums b))).
    - reflexivity.
    - by rewrite list_lookup_fmap, Hb.
    - by apply elem_of_elements.
    - intros j o Hlt Hj Hin. rewrite list_lookup_fmap in Hj.
      destruct (buckets !! j) as [b'|] eqn:Hb'; simplify_eq/=.
      apply elem_of_elements in Hin. apply (Hmax j Hlt). by exists b'. }
  split; [|exact Hlast]. split.
  - intros Hnone i Hi.
    destruct (last_member buckets k (ex_intro _ i Hi)) as (i' & Hi' & Hmax).
    rewrite (Hlast i' Hi' Hmax) in Hnone. done.
  - intros Hnone. unfold lineToBucket.
    rewrite lineToBucket_loop_absent; [done|].
    intros o Ho Hin. apply list_elem_of_fmap in Ho as (b & -> & Hb).
    apply list_elem_of_lookup in Hb as [i Hi].
    apply elem_of_elements in Hin. apply (Hnone i). by exists b.
Qed.

(** ** write: the files it creates and what it puts into them *)

Lemma string_app_inj_r (s1 s2 t : string) : s1 +:+ t = s2 +:+ t → s1 = s2.
Proof.
  assert (Hlen : ∀ s u : string,
            String.length (s +:+ u) = (String.length s + String.length u)%nat).
  { intros s u. induction s as [|c s IH]; simpl; [done|]. by rewrite IH. }
  revert s2. induction s1 as [|c1 s1 IH]; intros [|c2 s2] Heq; simpl in Heq.
  - done.
  - apply (f_equal String.length) in Heq.
    change (String.length t = S (String.length (s2 +:+ t))) in Heq.
    rewrite Hlen in Heq. lia.
  - apply (f_equal String.length) in Heq.
    change (S (String.length (s1 +:+ t)) = String.length t) in Heq.
    rewrite Hlen in Heq. lia.
  - injection Heq as -> Heq. f_equal. by apply IH.
Qed.

Lemma fileName_inj prefix : Inj (=) (=) (fileName prefix).
Proof.
  intros i j Heq. unfold fileName in Heq.
  apply (inj (String.app prefix)) in Heq.
  apply string_app_inj_r in Heq. apply (inj pretty) in Heq. lia.
Qed.

Lemma fileNames_NoDup prefix (buckets : list FileBucket) :
  NoDup (imap (λ i _, fileName prefix i) buckets).
Proof.
  rewrite imap_seq_0.
  pose proof (fileName_inj prefix) as Hinj.
  apply (NoDup_fmap_2 (fileName prefix)), NoDup_seq.
Qed.

Lemma write_created input prefix buckets w :
  created (write input prefix buckets w).1 =
    created w ++ imap (λ i _, fileName prefix i) buckets.
Proof.
  unfold write, write_along, bind, print. simpl. rewrite create_all_ok.
  cbn [stdout created].
  pose proof (write_loop_created
                (lineToBucket_loop 0 ((λ b, elements (LineNums b)) <$> buckets) ∅)
                input 0 (replicate (length buckets) [])
                (mkWorld (stdout w ++ [WriteStart])
                   (created w ++ imap (λ i _, fileName prefix i) buckets))) as Hc.
  destruct (write_loop _ _ _ _ _) as [w3 [files|e]]; simpl in *; done.
Qed.

(** X6: whatever the buckets, the write pass creates one file per bucket,
    named prefix1.csv, prefix2.csv, ... in bucket order, and no two of these
    names are equal. *)
Theorem write_creates_files input prefix buckets w :
  created (write input prefix buckets w).1 =
    created w ++ imap (λ i _, fileName prefix i) buckets ∧
  length (imap (λ i (_ : FileBucket), fileName prefix i) buckets) = length buckets ∧
  NoDup (imap (λ i (_ : FileBucket), fileName prefix i) buckets).
Proof.
  split; [apply write_created|]. split; [apply length_imap|apply fileNames_NoDup].
Qed.

Lemma filter_sublist_of {A} (P : A → Prop) `{∀ x, Decision (P x)} (l : list A) :
  filter P l `sublist_of` l.
Proof.
  induction l as [|x l IH]; [constructor|].
  rewrite filter_cons. destruct (decide (P x)); by constructor.
Qed.

Lemma routed_sublist lineToBucket n i lineNum rs :
  routed lineToBucket n i lineNum rs `sublist_of` rs.
Proof.
  unfold routed.
  assert (Hsnd : (imap (λ j rec, (lineNum + Z.of_nat j, rec)) rs).*2 = rs).
  { apply list_eq. intros j. rewrite list_lookup_fmap, list_lookup_imap.
    by destruct (rs !! j). }
  rewrite <- Hsnd at 2. apply fmap_sublist, filter_sublist_of.
Qed.

(** X7: whatever the buckets, the write pass returns one file per bucket; on
    a source with a header every file is the header followed by records of
    the source in the order in which the source has them (none repeated
    more often than the source has it, none made up). *)
Theorem write_files_from_input input prefix buckets w :
  ∃ w' files,
    write input prefix buckets w = (w', Ok files) ∧
    length files = length buckets ∧
    ∀ file, file ∈ files →
      match input with
      | [] => file = []
      | hdr :: _ => ∃ rest, file = hdr :: rest ∧ rest `sublist_of` input
      end.
Proof.
  unfold write, write_along, bind, print. simpl.
  rewrite create_all_ok. cbn [stdout created].
  fold (lineToBucket buckets).
  assert (Hroute : ∀ ln bi,
            route (lineToBucket buckets) (length buckets) ln ≠ Fatal bi).
  { apply route_in_range. intros k v Hk.
    apply lineToBucket_loop_bound in Hk as [Hk|Hk]; [done|].
    rewrite length_fmap in Hk. lia. }
  destruct input as [|hdr data].
  - simpl. unfold ret. eexists _, _. split; [done|].
    split; [by rewrite length_replicate|].
    intros file Hfile. by apply elem_of_replicate in Hfile as [-> _].
  - rewrite write_loop_header.
    destruct (write_loop_routed (lineToBucket buckets) (length buckets)
                (hdr :: data) Hroute 1
                (Write hdr <$> replicate (length buckets) [])
                (mkWorld (stdout w ++ [WriteStart])
                   (created w ++ imap (λ i _, fileName prefix i) buckets)))
      as [w' Hrun]; [lia|by rewrite length_fmap, length_replicate|].
    rewrite Hrun. unfold ret. eexists _, _. split; [done|].
    split; [by rewrite length_imap, length_fmap, length_replicate|].
    intros file Hfile. apply list_elem_of_lookup in Hfile as [i Hi].
    rewrite list_lookup_imap, list_lookup_fmap in Hi.
    destruct (replicate (length buckets) [] !! i) as [f|] eqn:Hf; [|done].
    apply lookup_replicate in Hf as [-> _]. simpl in Hi. simplify_eq.
    eexists. split; [reflexivity|]. apply routed_sublist.
Qed.

(** ** The goroutines: no deadlock, bounded runs *)

Lemma sum_list_length_insert (chs : list (list record)) i q q' :
  chs !! i = Some q →
  (sum_list (length <$> <[i := q']> chs) + length q =
   sum_list (length <$> chs) + length q')%nat.
Proof.
  revert i. induction chs as [|c chs IH]; intros [|i] Hi; simplify_eq/=; [lia|].
  specialize (IH i Hi). lia.
Qed.

Lemma step_work lineToBucket st st' :
  Conc.step lineToBucket st st' → (work st' < work st)%nat.
Proof.
  destruct 1 as [rec rs ln chs ws w header ws' ln' Hr
                |rec rs ln chs ws w i q header ws' ln' Hr Hq Hcap
                |ln chs ws w
                |rs ln chs ws w c i rec q Hq]; unfold work; simpl.
  - lia.
  - pose proof (sum_list_length_insert chs i q (q ++ [rec]) Hq) as H.
    rewrite length_app in H. simpl in H. lia.
  - lia.
  - pose proof (sum_list_length_insert chs i (rec :: q) q Hq) as H.
    simpl in H. lia.
Qed.

Lemma step_channels_length lineToBucket st st' :
  Conc.step lineToBucket st st' →
  length (Conc.channels st') = length (Conc.channels st).
Proof. destruct 1; simpl; by rewrite ?length_insert. Qed.

Lemma rtc_channels_length lineToBucket st st' :
  rtc (Conc.step lineToBucket) st st' →
  length (Conc.channels st') = length (Conc.channels st).
Proof.
  induction 1 as [|st st1 st2 Hstep _ IH]; [done|].
  by rewrite IH, (step_channels_length _ _ _ Hstep).
Qed.

(** A state that is not finished has a successor, unless its next record is
    routed out of range. *)
Lemma step_progress lineToBucket st :
  (∀ ln bi, route lineToBucket (length (Conc.channels st)) ln ≠ Fatal bi) →
  Conc.finished st ∨ ∃ st', Conc.step lineToBucket st st'.
Proof.
  destruct st as [rs ln chs ws w c]. simpl. intros Hroute.
  destruct (decide (Forall (λ q : list record, q = []) chs)) as [Hempty|Hfull].
  - destruct c; [by left|]. right.
    destruct rs as [|rec rs]; [eexists; constructor|].
    set (ln' := if ln =? 0 then ln + 1 else ln).
    destruct (route lineToBucket (length chs) ln') as [i| |bi] eqn:Hr.
    + pose proof (route_Send_lt _ _ _ _ Hr) as Hi.
      destruct (lookup_lt_is_Some_2 chs i Hi) as [q Hq].
      pose proof (Forall_lookup_1 _ _ _ _ Hempty Hq) as Hnil. simpl in Hnil.
      subst q. eexists.
      apply (Conc.step_send lineToBucket rec rs ln chs ws w i []);
        [exact Hr|exact Hq|unfold Conc.chanCap; simpl; lia].
    + eexists. by apply Conc.step_skip.
    + by apply Hroute in Hr.
  - right. apply not_Forall_Exists in Hfull; [|apply _].
    apply Exists_exists in Hfull as (q & Hin & Hq).
    apply list_elem_of_lookup in Hin as [i Hi].
    destruct q as [|rec q]; [by destruct Hq|].
    eexists. by apply (Conc.step_writer lineToBucket rs ln chs ws w c i rec q).
Qed.

Lemma run_completes lineToBucket k :
  ∀ st,
  (work st ≤ k)%nat →
  (∀ ln bi, route lineToBucket (length (Conc.channels st)) ln ≠ Fatal bi) →
  ∃ st', rtc (Conc.step lineToBucket) st st' ∧ Conc.finished st'.
Proof.
  induction k as [|k IH]; intros st Hk Hroute;
    destruct (step_progress lineToBucket st Hroute) as [Hfin|[st1 Hstep]];
    try (by exists st).
  - apply step_work in Hstep. lia.
  - destruct (IH st1) as (st' & Hrtc & Hfin).
    + apply step_work in Hstep. lia.
    + by rewrite (step_channels_length _ _ _ Hstep).
    + exists st'. split; [by eapply rtc_l|done].
Qed.

(** X8: the write pass cannot deadlock.  As long as no line number is routed
    out of range, every state its goroutines can reach, under whatever
    interleaving, can be continued to a state in which the read loop has
    left and every channel is drained. *)
Theorem write_never_deadlocks lineToBucket input n w st :
  (∀ ln bi, route lineToBucket n ln ≠ Fatal bi) →
  rtc (Conc.step lineToBucket) (Conc.init input n w) st →
  ∃ st', rtc (Conc.step lineToBucket) st st' ∧ Conc.finished st'.
Proof.
  intros Hroute Hrtc.
  apply (run_completes lineToBucket (work st)); [done|].
  assert (Hlen : length (Conc.channels st) = n).
  { rewrite (rtc_channels_length _ _ _ Hrtc). simpl. apply length_replicate. }
  by rewrite Hlen.
Qed.

Lemma route_lineToBucket buckets :
  ∀ ln bi, route (lineToBucket buckets) (length buckets) ln ≠ Fatal bi.
Proof.
  apply route_in_range. intros k v Hk.
  apply lineToBucket_loop_bound in Hk as [Hk|Hk]; [done|].
  rewrite length_fmap in Hk. lia.
Qed.

Lemma write_never_deadlocks_witness :
  let buckets := [mkFileBucket 10 {[1]}; mkFileBucket 1 {[2]}] in
  (∀ ln bi, route (lineToBucket buckets) 2 ln ≠ Fatal bi) ∧
  rtc (Conc.step (lineToBucket buckets))
      (Conc.init two_rows 2 (mkWorld [] [])) (Conc.init two_rows 2 (mkWorld [] [])) ∧
  ∃ st', rtc (Conc.step (lineToBucket buckets))
             (Conc.init two_rows 2 (mkWorld [] [])) st' ∧ Conc.finished st'.
Proof.
  intros buckets.
  pose proof (route_lineToBucket buckets) as Hroute.
  split; [exact Hroute|]. split; [apply rtc_refl|].
  exact (write_never_deadlocks (lineToBucket buckets) two_rows 2 (mkWorld [] [])
           _ Hroute (rtc_refl _ _)).
Defined.

Lemma nsteps_work lineToBucket k st st' :
  nsteps (Conc.step lineToBucket) k st st' → (k + work st' ≤ work st)%nat.
Proof.
  induction 1 as [|k st st1 st2 Hstep _ IH]; [lia|].
  apply step_work in Hstep. lia.
Qed.

(** X9: the write pass cannot run forever.  Whatever the interleaving, a run
    over a source of N records (header included) takes at most 2 N + 1 steps
    of its goroutines: a send or skip and a receive for each record, and the
    read loop leaving. *)
Theorem write_run_bounded lineToBucket input n w k st :
  nsteps (Conc.step lineToBucket) k (Conc.init input n w) st →
  (k ≤ 2 * length input + 1)%nat.
Proof.
  intros Hrun. apply nsteps_work in Hrun.
  unfold work at 2 in Hrun. simpl in Hrun.
  assert (Hzero : sum_list (length <$> replicate n ([] : list record)) = 0%nat).
  { clear. induction n as [|n IH]; simpl; [done|]. exact IH. }
  rewrite Hzero in Hrun. lia.
Qed.

Lemma write_run_bounded_witness :
  nsteps (Conc.step (∅ : gmap Z Z)) 2 (Conc.init one_row 1 (mkWorld [] []))
    (Conc.mkState [] 3 [[]] [[header]]
       (mkWorld [WarnLineNotFound 1; WarnLineNotFound 2] []) false) ∧
  (2 ≤ 2 * length one_row + 1)%nat.
Proof.
  assert (Hrun : nsteps (Conc.step (∅ : gmap Z Z)) 2
                   (Conc.init one_row 1 (mkWorld [] []))
                   (Conc.mkState [] 3 [[]] [[header]]
                      (mkWorld [WarnLineNotFound 1; WarnLineNotFound 2] []) false)).
  { eapply nsteps_l; [apply (Conc.step_skip ∅ header [row1] 0 [[]] [[]]); done|].
    eapply nsteps_l; [apply (Conc.step_skip ∅ row1 [] 2 [[]] [[header]]); done|].
    apply nsteps_O. }
  split; [exact Hrun|].
  exact (write_run_bounded ∅ one_row 1 (mkWorld [] []) 2 _ Hrun).
Defined.

(** ** FormatNumber *)

Lemma concat_groups_length (groups : list (list ascii)) :
  Forall (λ g, length g = 3%nat) groups →
  length (concat groups) = (3 * length groups)%nat.
Proof. induction 1 as [|g groups Hg _ IH]; simpl; [done|]. rewrite length_app. lia. Qed.

Lemma FormatNumber_loop_groups k :
  ∀ fuel s i b,
  (i + 3 * k = length s)%nat → (k ≤ fuel)%nat →
  ∃ groups,
    drop i s = concat groups ∧
    Forall (λ g, length g = 3%nat) groups ∧
    length groups = k ∧
    FormatNumber_loop fuel s i b =
      Some (b ++ concat ((λ g, ","%char :: g) <$> groups)).
Proof.
  induction k as [|k IH]; intros fuel s i b Hlen Hfuel.
  - exists []. split; [by rewrite drop_ge by lia|]. split; [constructor|].
    split; [done|].
    destruct fuel; simpl; (destruct (Nat.ltb_spec i (length s)); [lia|]);
      by rewrite app_nil_r.
  - destruct fuel as [|fuel]; [lia|]. simpl.
    destruct (Nat.ltb_spec i (length s)); [|lia].
    unfold slice. rewrite decide_True by lia.
    replace (i + 3 - i)%nat with 3%nat by lia.
    destruct (IH fuel s (i + 3)%nat (b ++ ","%char :: take 3 (drop i s)))
      as (groups & Hdrop & Hall & Hk & Hrun); [lia|lia|].
    exists (take 3 (drop i s) :: groups). split; [|split; [|split]].
    + simpl. rewrite <- Hdrop, <- drop_drop. by rewrite take_drop.
    + constructor; [|done]. rewrite length_take, length_drop. lia.
    + simpl. by rewrite Hk.
    + rewrite Hrun. simpl. by rewrite <- app_assoc.
Qed.

Lemma FormatNumber_bytes_groups s :
  ∃ first groups,
    FormatNumber_bytes s =
      Some (first ++ concat ((λ g, ","%char :: g) <$> groups)) ∧
    s = first ++ concat groups ∧
    Forall (λ g, length g = 3%nat) groups ∧
    (length first ≤ 3)%nat ∧
    ((length s ≤ 3)%nat → groups = []) ∧
    ((3 < length s)%nat → (1 ≤ length first)%nat ∧ groups ≠ []).
Proof.
  unfold FormatNumber_bytes.
  destruct (Nat.leb_spec (length s) 3) as [Hshort|Hlong].
  - exists s, []. simpl. rewrite app_nil_r.
    split; [done|]. split; [done|]. split; [constructor|]. split; [done|].
    split; [done|lia].
  - set (pre := if ((length s `mod` 3) =? 0)%nat then 3%nat else (length s `mod` 3)%nat).
    pose proof (Nat.div_mod_eq (length s) 3) as Hdiv.
    pose proof (Nat.mod_upper_bound (length s) 3 ltac:(lia)) as Hmod.
    assert (Hpre : (1 ≤ pre ≤ 3)%nat ∧
                   ∃ k, (pre + 3 * k = length s)%nat ∧ (1 ≤ k ≤ length s)%nat).
    { unfold pre. destruct (Nat.eqb_spec (length s `mod` 3) 0) as [H0|H0].
      - split; [lia|]. exists (length s `div` 3 - 1)%nat. lia.
      - split; [lia|]. exists (length s `div` 3)%nat. lia. }
    destruct Hpre as [Hpre (k & Hk & Hk')].
    unfold slice. rewrite decide_True by lia.
    rewrite Nat.sub_0_r, drop_0.
    destruct (FormatNumber_loop_groups k (length s) s pre (take pre s))
      as (groups & Hdrop & Hall & Hlen & Hrun); [done|lia|].
    exists (take pre s), groups. split; [exact Hrun|].
    split; [by rewrite <- Hdrop, take_drop|]. split; [done|].
    rewrite length_take. split; [lia|]. split; [lia|]. intros _. split; [lia|].
    intros ->. simpl in Hlen. lia.
Qed.

(** X10: [FormatNumber] never slices out of bounds.  Its result is the
    decimal text of the number cut into a first group of one to three
    characters and groups of exactly three, a comma before each of the
    latter; up to three characters are returned unchanged. *)
Theorem FormatNumber_groups n :
  ∃ first groups,
    FormatNumber n =
      Some (string_of_list_ascii
              (first ++ concat ((λ g, ","%char :: g) <$> groups))) ∧
    list_ascii_of_string (pretty n) = first ++ concat groups ∧
    Forall (λ g, length g = 3%nat) groups ∧
    (length first ≤ 3)%nat ∧
    ((length (list_ascii_of_string (pretty n)) ≤ 3)%nat → groups = []) ∧
    ((3 < length (list_ascii_of_string (pretty n)))%nat →
     (1 ≤ length first)%nat ∧ groups ≠ []).
Proof.
  destruct (FormatNumber_bytes_groups (list_ascii_of_string (pretty n)))
    as (first & groups & Hrun & Hs & Hall & Hfirst & Hshort & Hlong).
  exists first, groups. unfold FormatNumber. rewrite Hrun. done.
Qed.

(** The characters of the decimal text of a number. *)
Lemma pretty_N_go_chars (P : ascii → Prop) x :
  (∀ d, P (pretty_N_char d)) →
  ∀ s, Forall P (list_ascii_of_string s) →
       Forall P (list_ascii_of_string (pretty_N_go x s)).
Proof.
  intros Hdigit. induction (N.lt_wf_0 x) as [x _ IH]; intros s Hs.
  assert (x = 0 ∨ 0 < x)%N as [->|Hpos] by lia.
  - by rewrite pretty_N_go_0.
  - rewrite pretty_N_go_step by done. apply IH.
    + by apply N.div_lt.
    + simpl. by constructor.
Qed.

Lemma pretty_N_chars (P : ascii → Prop) (x : N) :
  (∀ d, P (pretty_N_char d)) → Forall P (list_ascii_of_string (pretty x)).
Proof.
  intros Hdigit. unfold pretty, pretty_N. case_decide.
  - repeat constructor. apply (Hdigit 0%N).
  - apply pretty_N_go_chars; [done|constructor].
Qed.

Lemma pretty_Z_chars (P : ascii → Prop) (n : Z) :
  (∀ d, P (pretty_N_char d)) → P "-"%char →
  Forall P (list_ascii_of_string (pretty n)).
Proof.
  intros Hdigit Hdash. destruct n as [|p|p]; unfold pretty, pretty_Z.
  - repeat constructor. apply (Hdigit 0%N).
  - by apply pretty_N_chars.
  - simpl. constructor; [done|]. by apply pretty_N_chars.
Qed.

Lemma pretty_Z_no_comma (n : Z) :
  Forall (λ c, c ≠ ","%char) (list_ascii_of_string (pretty n)).
Proof.
  apply pretty_Z_chars; [|done].
  intros d. unfold pretty_N_char. by repeat case_match.
Qed.

Lemma filter_commas_groups (first : list ascii) groups :
  filter (λ c, c ≠ ","%char) (first ++ concat ((λ g, ","%char :: g) <$> groups)) =
  filter (λ c, c ≠ ","%char) (first ++ concat groups).
Proof.
  rewrite !filter_app. f_equal.
  induction groups as [|g groups IH]; [done|].
  rewrite fmap_cons. cbn [concat]. rewrite <- app_comm_cons.
  rewrite filter_cons, decide_False by (by intros H; apply H).
  by rewrite !filter_app, IH.
Qed.

Lemma filter_all {A} (P : A → Prop) `{∀ x, Decision (P x)} (l : list A) :
  Forall P l → filter P l = l.
Proof.
  induction 1 as [|x l Hx _ IH]; [done|].
  by rewrite filter_cons, decide_True, IH.
Qed.

(** X11: taking the commas out of what [FormatNumber] returns gives back the
    decimal text of the number: the function only inserts separators. *)
Theorem FormatNumber_strip_commas n :
  ∃ r,
    FormatNumber n = Some r ∧
    string_of_list_ascii
      (filter (λ c, c ≠ ","%char) (list_ascii_of_string r)) = pretty n.
Proof.
  destruct (FormatNumber_bytes_groups (list_ascii_of_string (pretty n)))
    as (first & groups & Hrun & Hs & _).
  unfold FormatNumber. rewrite Hrun. eexists. split; [reflexivity|].
  rewrite list_ascii_of_string_of_list_ascii, filter_commas_groups, <- Hs.
  rewrite filter_all by apply pretty_Z_no_comma.
  apply string_of_list_ascii_of_string.
Qed.

Lemma length_list_ascii_of_string s :
  length (list_ascii_of_string s) = String.length s.
Proof. induction s as [|c s IH]; simpl; [done|]. by rewrite IH. Qed.

(** X12: the minus sign is counted like a digit.  For a negative number whose
    decimal text has more than three characters and a length that leaves the
    remainder 1 modulo 3 (a number of digits that is a multiple of three),
    [FormatNumber] puts a comma right after the sign. *)
Theorem FormatNumber_negative_sign n :
  n < 0 →
  (3 < String.length (pretty n))%nat →
  (String.length (pretty n) `mod` 3 = 1)%nat →
  ∃ rest, FormatNumber n = Some (String "-" (String "," rest)).
Proof.
  intros Hneg Hlong Hmod.
  destruct (FormatNumber_bytes_groups (list_ascii_of_string (pretty n)))
    as (first & groups & Hrun & Hs & Hall & Hfirst & _ & Hlong').
  rewrite length_list_ascii_of_string in Hlong'.
  destruct (Hlong' Hlong) as [Hfirst' Hgroups].
  assert (Hlen : String.length (pretty n) = (length first + 3 * length groups)%nat).
  { rewrite <- length_list_ascii_of_string, Hs, length_app.
    by rewrite concat_groups_length. }
  assert (length first = 1%nat) as Hone.
  { rewrite Hlen, (Nat.mul_comm 3), Nat.Div0.mod_add in Hmod.
    assert (length first = 1 ∨ length first = 2 ∨ length first = 3)%nat
      as [H|[H|H]] by lia; rewrite H in Hmod; simpl in Hmod; lia. }
  destruct first as [|c [|c' first]]; simplify_eq/=.
  destruct groups as [|g groups]; [done|].
  destruct n as [|p|p]; [lia|lia|].
  unfold pretty, pretty_Z in Hs. simpl in Hs. injection Hs as <- _.
  unfold FormatNumber. rewrite Hrun. simpl. eauto.
Qed.

Lemma FormatNumber_negative_sign_witness :
  -123 < 0 ∧ (3 < String.length (pretty (-123)%Z))%nat ∧
  (String.length (pretty (-123)%Z) `mod` 3 = 1)%nat ∧
  ∃ rest, FormatNumber (-123) = Some (String "-" (String "," rest)).
Proof.
  split; [lia|]. split; [vm_compute; lia|]. split; [by vm_compute|].
  apply FormatNumber_negative_sign; [lia|vm_compute; lia|by vm_compute].
Defined.

(** ** inspectCmd *)

Lemma wrap_add_wrap a b : Int64.wrap (Int64.wrap a + b) = Int64.wrap (a + b).
Proof.
  rewrite (wrap_eq a), !(wrap_eq (_ + b)).
  set (q := (a + 2 ^ 63) `div` 2 ^ 64).
  replace (a - 2 ^ 64 * q + b + 2 ^ 63) with (a + b + 2 ^ 63 + (- q) * 2 ^ 64) by lia.
  rewrite Z.div_add by lia. lia.
Qed.

Lemma parsed_size_field rec field :
  rec !! 2%nat = Some field →
  parsed_size rec = match Atoi field with
                    | (size, None) => Some size
                    | (_, Some _) => None
                    end.
Proof. intros Hf. unfold parsed_size, weight_field. by rewrite Hf. Qed.

Lemma inspect_loop_result rs :
  ∀ lineCount totalSize out,
  Forall (λ rec : record, is_Some (rec !! 2%nat)) rs →
  Int64.in_range totalSize →
  (inspect_loop rs lineCount totalSize out).2 =
    Some (lineCount + Z.of_nat (length rs),
          Int64.wrap (totalSize + sum_parsed rs)).
Proof.
  induction rs as [|rec rs IH]; intros lineCount totalSize out Hall Hin.
  - simpl. rewrite !Z.add_0_r, wrap_id by done. done.
  - apply Forall_cons in Hall as [[field Hfield] Hall].
    cbn [inspect_loop sum_parsed foldr]. fold (sum_parsed rs).
    rewrite Hfield, (parsed_size_field _ _ Hfield).
    rewrite length_cons, Nat2Z.inj_succ.
    destruct (Atoi field) as [size [e|]]; simpl default.
    + rewrite IH by done.
      replace (lineCount + 1 + Z.of_nat (length rs))
        with (lineCount + Z.succ (Z.of_nat (length rs))) by lia.
      by replace (totalSize + (0 + sum_parsed rs)) with (totalSize + sum_parsed rs) by lia.
    + rewrite IH by (done || apply wrap_in_range).
      replace (lineCount + 1 + Z.of_nat (length rs))
        with (lineCount + Z.succ (Z.of_nat (length rs))) by lia.
      rewrite wrap_add_wrap.
      by replace (totalSize + size + sum_parsed rs)
        with (totalSize + (size + sum_parsed rs)) by lia.
Qed.

Lemma inspect_loop_short pre :
  ∀ rec post lineCount totalSize out,
  Forall (λ rec : record, is_Some (rec !! 2%nat)) pre →
  rec !! 2%nat = None →
  (inspect_loop (pre ++ rec :: post) lineCount totalSize out).2 = None.
Proof.
  induction pre as [|r pre IH]; intros rec post lineCount totalSize out Hpre Hrec.
  - simpl. by rewrite Hrec.
  - apply Forall_cons in Hpre as [[field Hfield] Hpre].
    cbn [app inspect_loop]. rewrite Hfield.
    destruct (Atoi field) as [size [e|]]; by apply IH.
Qed.

Lemma inspect_loop_errors rs :
  ∀ lineCount totalSize out line,
  Forall (λ rec : record, is_Some (rec !! 2%nat)) rs →
  InspectParseError line ∈ (inspect_loop rs lineCount totalSize out).1 ↔
  InspectParseError line ∈ out ∨
  ∃ j rec, rs !! j = Some rec ∧ line = lineCount + Z.of_nat j + 1 ∧
           parsed_size rec = None.
Proof.
  induction rs as [|rec rs IH]; intros lineCount totalSize out line Hall.
  - simpl. split; [by left|]. intros [H|(j & r & Hj & _)]; done.
  - apply Forall_cons in Hall as [[field Hfield] Hall].
    cbn [inspect_loop]. rewrite Hfield.
    pose proof (parsed_size_field _ _ Hfield) as Hparsed.
    destruct (Atoi field) as [size [e|]]; rewrite IH by done; clear IH.
    + rewrite elem_of_app, list_elem_of_singleton. split.
      * intros [[H|[= ->]]|(j & r & Hj & -> & Hr)].
        -- by left.
        -- right. exists 0%nat, rec. simpl. split; [done|]. split; [lia|done].
        -- right. exists (S j), r. split; [done|]. split; [lia|done].
      * intros [H|([|j] & r & Hj & -> & Hr)]; simplify_eq/=.
        -- by left; left.
        -- left; right. f_equal. lia.
        -- right. exists j, r. split; [done|]. split; [lia|done].
    + assert (Hout : InspectParseError line ∈
                       (if (lineCount + 1) `mod` 1000000 =? 0
                        then out ++ [InspectProcessed (lineCount + 1)] else out) ↔
                     InspectParseError line ∈ out).
      { destruct (_ =? 0); [|done].
        rewrite elem_of_app, list_elem_of_singleton.
        split; [intros [H|H]; done|by left]. }
      rewrite Hout. split.
      * intros [H|(j & r & Hj & -> & Hr)]; [by left|].
        right. exists (S j), r. split; [done|]. split; [lia|done].
      * intros [H|([|j] & r & Hj & -> & Hr)]; simplify_eq/=; [by left|].
        right. exists j, r. split; [done|]. split; [lia|done].
Qed.

Lemma FormatNumber_is_Some n : is_Some (FormatNumber n).
Proof.
  destruct (FormatNumber_bytes_groups (list_ascii_of_string (pretty n)))
    as (first & groups & Hrun & _).
  unfold FormatNumber. rewrite Hrun. by eexists.
Qed.

(** X13: [inspectCmd] on a file that opens returns exactly when every data
    record has at least three fields, and panics otherwise; a file without
    any record, on which [scan] panics, is reported as zero lines. *)
Theorem inspect_returns_iff src :
  ((inspectCmd (Some src)).2 = InspectReturns ↔
   Forall (λ rec : record, is_Some (rec !! 2%nat)) (tail src)) ∧
  (¬ Forall (λ rec : record, is_Some (rec !! 2%nat)) (tail src) →
   (inspectCmd (Some src)).2 = InspectPanics) ∧
  (src = [] → inspectCmd (Some src) = ([InspectTotal 0 "0"], InspectReturns)).
Proof.
  assert (Hpanic : ¬ Forall (λ rec : record, is_Some (rec !! 2%nat)) (tail src) →
                   (inspectCmd (Some src)).2 = InspectPanics).
  { intros Hnot.
    apply first_short_record in Hnot as (pre & rec & post & Hsrc & Hpre & Hrec).
    unfold inspectCmd. rewrite Hsrc.
    pose proof (inspect_loop_short pre rec post 0 0 [] Hpre Hrec) as H.
    destruct (inspect_loop _ _ _ _) as [out [[lc ts]|]]; simpl in *; done. }
  split; [|split; [exact Hpanic|by intros ->]].
  split.
  - intros Hret.
    destruct (decide (Forall (λ rec : record, is_Some (rec !! 2%nat)) (tail src)))
      as [Hall|Hnot]; [done|].
    rewrite (Hpanic Hnot) in Hret. done.
  - intros Hall. unfold inspectCmd.
    pose proof (inspect_loop_result (tail src) 0 0 [] Hall ltac:(by vm_compute)) as H.
    destruct (inspect_loop _ _ _ _) as [out [[lc ts]|]]; simpl in *; [|done].
    by destruct (FormatNumber_is_Some (Z.quot ts (1024 * 1024))) as [mb ->].
Qed.

(** X14: when every data record has at least three fields, [inspectCmd] ends
    its output with the number of data records and the formatted quotient by
    2^20 of the 64-bit sum of the sizes that parse, and prints a parse error
    for line k exactly when the size of the k-th data record does not
    parse. *)
Theorem inspect_reports src :
  Forall (λ rec : record, is_Some (rec !! 2%nat)) (tail src) →
  ∃ out mb,
    inspectCmd (Some src) =
      (out ++ [InspectTotal (Z.of_nat (length (tail src))) mb], InspectReturns) ∧
    FormatNumber (Z.quot (Int64.wrap (sum_parsed (tail src))) (1024 * 1024)) = Some mb ∧
    ∀ line, InspectParseError line ∈ out ↔
            ∃ j rec, tail src !! j = Some rec ∧ line = Z.of_nat j + 1 ∧
                     parsed_size rec = None.
Proof.
  intros Hall. unfold inspectCmd.
  pose proof (inspect_loop_result (tail src) 0 0 [] Hall ltac:(by vm_compute)) as Hres.
  pose proof (λ line, inspect_loop_errors (tail src) 0 0 [] line Hall) as Herr.
  rewrite !Z.add_0_l in Hres.
  destruct (inspect_loop _ _ _ _) as [out [[lc ts]|]]; cbn [fst snd] in *; [|done].
  injection Hres as -> ->.
  destruct (FormatNumber_is_Some
              (Z.quot (Int64.wrap (sum_parsed (tail src))) (1024 * 1024)))
    as [mb Hmb].
  rewrite Hmb. exists out, mb. split; [done|]. split; [done|].
  intros line. rewrite Herr. split.
  - intros [H|(j & r & Hj & -> & Hr)]; [by apply elem_of_nil in H|].
    exists j, r. split; [done|]. split; [lia|done].
  - intros (j & r & Hj & -> & Hr). right.
    exists j, r. split; [done|]. split; [lia|done].
Qed.

Lemma inspect_reports_witness :
  Forall (λ rec : record, is_Some (rec !! 2%nat)) (tail unparsable_row) ∧
  ∃ out mb,
    inspectCmd (Some unparsable_row) =
      (out ++ [InspectTotal (Z.of_nat (length (tail unparsable_row))) mb],
       InspectReturns) ∧
    FormatNumber (Z.quot (Int64.wrap (sum_parsed (tail unparsable_row)))
                    (1024 * 1024)) = Some mb ∧
    ∀ line, InspectParseError line ∈ out ↔
            ∃ j rec, tail unparsable_row !! j = Some rec ∧
                     line = Z.of_nat j + 1 ∧ parsed_size rec = None.
Proof.
  assert (Hall : Forall (λ rec : record, is_Some (rec !! 2%nat))
                   (tail unparsable_row)).
  { apply Forall_singleton. by eexists. }
  split; [exact Hall|].
  exact (inspect_reports unparsable_row Hall).
Defined.

Lemma sum_Size_parsed (f : nat → record → LineMeta) data :
  (∀ i rec, Size (f i rec) = (strconv.ParseInt (weight_field rec)).1) →
  Forall (λ rec, (Atoi (weight_field rec)).2 ≠ Some strconv.ErrRange) data →
  sum_Size (imap f data) = sum_parsed data.
Proof.
  intros Hf Hall. revert f Hf.
  induction Hall as [|rec data Hrec _ IH]; intros f Hf; [done|].
  rewrite imap_cons. cbn [sum_Size sum_parsed foldr].
  fold (sum_Size (imap (f ∘ S) data)). fold (sum_parsed data).
  rewrite (IH (f ∘ S)) by (intros i r; apply Hf).
  f_equal. rewrite Hf. unfold parsed_size, Atoi in *.
  destruct (strconv.ParseInt (weight_field rec)) as [size [[]|]] eqn:Hp;
    simpl in *; [|done|done].
  pose proof (ParseInt_syntax (weight_field rec)) as Hs.
  rewrite Hp in Hs. by apply Hs.
Qed.

(** X15: [inspectCmd] and the scan of [splitCmd] agree.  On a source with a
    header whose data records all have three fields and no size field out of
    the int64 range, [inspectCmd] reports the number of metas [scan] returns
    and the formatted quotient by 2^20 of the 64-bit sum of their
    weights. *)
Theorem inspect_agrees_with_scan hdr data :
  Forall (λ rec : record, is_Some (rec !! 2%nat)) data →
  Forall (λ rec, (Atoi (weight_field rec)).2 ≠ Some strconv.ErrRange) data →
  ∃ out mb w metas,
    run (scan (hdr :: data)) = (w, Ok metas) ∧
    inspectCmd (Some (hdr :: data)) =
      (out ++ [InspectTotal (Z.of_nat (length metas)) mb], InspectReturns) ∧
    FormatNumber (Z.quot (Int64.wrap (sum_Size metas)) (1024 * 1024)) = Some mb.
Proof.
  intros Hall Hrange.
  pose proof (scan_ok hdr data (mkWorld [] []) Hall) as Hscan.
  unfold inspectCmd. cbn [tail].
  pose proof (inspect_loop_result data 0 0 [] Hall ltac:(by vm_compute)) as Hres.
  rewrite !Z.add_0_l in Hres.
  destruct (inspect_loop _ _ _ _) as [out [[lc ts]|]]; cbn [fst snd] in *; [|done].
  injection Hres as -> ->.
  destruct (FormatNumber_is_Some
              (Z.quot (Int64.wrap (sum_parsed data)) (1024 * 1024))) as [mb Hmb].
  rewrite Hmb. eexists out, mb, _, _. split; [exact Hscan|].
  rewrite length_imap. split; [done|].
  by rewrite (sum_Size_parsed meta_of data).
Qed.

Lemma inspect_agrees_with_scan_witness :
  Forall (λ rec : record, is_Some (rec !! 2%nat)) [row1; row_unparsable; row2] ∧
  Forall (λ rec, (Atoi (weight_field rec)).2 ≠ Some strconv.ErrRange)
         [row1; row_unparsable; row2] ∧
  ∃ out mb w metas,
    run (scan (header :: [row1; row_unparsable; row2])) = (w, Ok metas) ∧
    inspectCmd (Some (header :: [row1; row_unparsable; row2])) =
      (out ++ [InspectTotal (Z.of_nat (length metas)) mb], InspectReturns) ∧
    FormatNumber (Z.quot (Int64.wrap (sum_Size metas)) (1024 * 1024)) = Some mb.
Proof.
  assert (H1 : Forall (λ rec : record, is_Some (rec !! 2%nat))
                 [row1; row_unparsable; row2]).
  { repeat constructor; by eexists. }
  assert (H2 : Forall (λ rec, (Atoi (weight_field rec)).2 ≠ Some strconv.ErrRange)
                 [row1; row_unparsable; row2]).
  { repeat constructor; by vm_compute. }
  split; [exact H1|]. split; [exact H2|].
  exact (inspect_agrees_with_scan header [row1; row_unparsable; row2] H1 H2).
Defined.

(** ** The command on a well-formed source *)

Lemma write_returns input prefix buckets w :
  ∃ w' files, write input prefix buckets w = (w', Ok files) ∧
              length files = length buckets.
Proof.
  unfold write, write_along, bind, print. simpl.
  rewrite create_all_ok. cbn [stdout created]. fold (lineToBucket buckets).
  destruct (write_loop_ok (lineToBucket buckets) input 0
              (replicate (length buckets) [])
              (mkWorld (stdout w ++ [WriteStart])
                 (created w ++ imap (λ i _, fileName prefix i) buckets)))
    as (w' & files & Hrun & Hlen & _).
  { rewrite length_replicate. apply route_lineToBucket. }
  rewrite Hrun. unfold ret. rewrite length_replicate in Hlen. eauto.
Qed.

(** X16: on a source with a header whose data records all have three fields,
    and with B >= 1, [splitCmd] neither panics nor exits: it returns one file
    content per bucket, has created exactly the files prefix1.csv ...
    prefixB.csv, and its last line of output is the final message. *)
Theorem split_returns sort_Slice hdr data bucketsN prefix :
  SliceContract sort_Slice →
  Forall (λ rec : record, is_Some (rec !! 2%nat)) data →
  1 ≤ bucketsN →
  ∃ w files,
    run (splitCmd sort_Slice (hdr :: data) bucketsN prefix) = (w, Ok files) ∧
    length files = Z.to_nat bucketsN ∧
    created w = fileName prefix <$> seq 0 (Z.to_nat bucketsN) ∧
    last (stdout w) = Some (SplitDone bucketsN).
Proof.
  intros Hsort Hall HB.
  pose proof (scan_ok hdr data (mkWorld [] []) Hall) as Hscan.
  destruct (binpack_ok sort_Slice (imap meta_of data) bucketsN
              (mkWorld ([] ++ scan_stdout (length data)) []) HB)
    as (buckets & Hbin & _ & Hlen).
  match type of Hbin with _ = (?w, _) => set (w2 := w) in * end.
  assert (Hw2 : created w2 = []) by done.
  destruct (write_returns (hdr :: data) prefix buckets w2)
    as (w3 & files & Hwrite & Hfiles).
  pose proof (write_created (hdr :: data) prefix buckets w2) as Hcreated.
  rewrite Hwrite, Hw2 in Hcreated. simpl in Hcreated.
  unfold run, splitCmd.
  rewrite (bind_ok _ _ _ _ _ Hscan), (bind_ok _ _ _ _ _ Hbin),
    (bind_ok _ _ _ _ _ Hwrite).
  unfold bind, print, ret. simpl.
  eexists _, files. split; [done|]. split; [congruence|].
  split; simpl.
  - rewrite Hcreated, imap_seq_0, Hlen. done.
  - by rewrite last_snoc.
Qed.

Lemma split_returns_witness :
  SliceContract (insertionSort_func less) ∧
  Forall (λ rec : record, is_Some (rec !! 2%nat)) [row1; row2] ∧
  1 ≤ 2 ∧
  ∃ w files,
    run (splitCmd (insertionSort_func less) (header :: [row1; row2]) 2 "out_") =
      (w, Ok files) ∧
    length files = Z.to_nat 2 ∧
    created w = fileName "out_" <$> seq 0 (Z.to_nat 2) ∧
    last (stdout w) = Some (SplitDone 2).
Proof.
  assert (H1 : Forall (λ rec : record, is_Some (rec !! 2%nat)) [row1; row2]).
  { repeat constructor; by eexists. }
  split; [apply insertionSort_contract|]. split; [exact H1|]. split; [lia|].
  apply (split_returns (insertionSort_func less) header [row1; row2] 2 "out_"
           insertionSort_contract H1).
  lia.
Defined.

(** ** write: no record goes to two files *)

Lemma sum_list_length_WriteTo i rec (writers : list (list record)) :
  (sum_list (length <$> WriteTo i rec writers) ≤
   sum_list (length <$> writers) + 1)%nat.
Proof.
  unfold WriteTo, Write. revert i.
  induction writers as [|f writers IH]; intros [|i]; csimpl; try lia.
  - rewrite length_app. simpl. lia.
  - specialize (IH i). lia.
Qed.

Lemma sum_list_length_broadcast rec (writers : list (list record)) :
  sum_list (length <$> (Write rec <$> writers)) =
    (sum_list (length <$> writers) + length writers)%nat.
Proof.
  unfold Write. induction writers as [|f writers IH]; csimpl; [done|].
  rewrite length_app, IH. simpl. lia.
Qed.

Lemma write_loop_total lineToBucket rs :
  ∀ lineNum writers w w' files,
  0 < lineNum →
  write_loop lineToBucket rs lineNum writers w = (w', Ok files) →
  (sum_list (length <$> files) ≤ sum_list (length <$> writers) + length rs)%nat.
Proof.
  induction rs as [|rec rs IH]; intros lineNum writers w w' files Hpos Hrun.
  - simpl in Hrun. unfold ret in Hrun. simplify_eq. simpl. lia.
  - cbn [write_loop] in Hrun.
    destruct (Z.eqb_spec lineNum 0) as [?|_]; [lia|].
    destruct (route _ _ _) as [i| |bi]; unfold bind, when, print, abort in Hrun.
    + destruct (_ =? 0); simpl in Hrun; apply IH in Hrun; try lia;
        pose proof (sum_list_length_WriteTo i rec writers); rewrite length_cons; lia.
    + simpl in Hrun. apply IH in Hrun; [rewrite length_cons; lia|lia].
    + done.
Qed.

Lemma sum_list_length_replicate n :
  sum_list (length <$> replicate n ([] : list record)) = 0%nat.
Proof. induction n as [|n IH]; csimpl; [done|]. exact IH. Qed.

(** X17: whatever the buckets, also when a line number is a member of several
    of them, the files of the write pass hold together at most one record per
    bucket (the header written to each) plus one per record of the source:
    no record read is written to two files. *)
Theorem write_no_record_twice input prefix buckets w :
  ∃ w' files,
    write input prefix buckets w = (w', Ok files) ∧
    (sum_list (length <$> files) ≤ length buckets + length input)%nat.
Proof.
  destruct (write_returns input prefix buckets w) as (w' & files & Hrun & _).
  exists w', files. split; [done|].
  unfold write, write_along, bind, print in Hrun. simpl in Hrun.
  rewrite create_all_ok in Hrun. cbn [stdout created] in Hrun.
  destruct (write_loop _ _ _ _ _) as [w3 [files'|e]] eqn:Hloop; [|done].
  unfold ret in Hrun. simplify_eq.
  destruct input as [|hdr data].
  - simpl in Hloop. unfold ret in Hloop. simplify_eq.
    rewrite sum_list_length_replicate. lia.
  - rewrite write_loop_header in Hloop.
    apply write_loop_total in Hloop; [|lia].
    rewrite sum_list_length_broadcast, length_replicate,
      sum_list_length_replicate in Hloop.
    lia.
Qed.

(** ** The partitioner: a single bucket *)

Lemma greedy_single_bucket metas :
  ∀ b buckets',
  greedy [b] metas buckets' →
  Int64.in_range (TotalSize b) →
  buckets' = [mkFileBucket (Int64.wrap (TotalSize b + sum_Size metas))
                (list_to_set (LineNumber <$> metas) ∪ LineNums b)].
Proof.
  induction metas as [|meta metas IH]; intros b buckets' Hg Hin.
  - inv Hg. simpl. rewrite Z.add_0_r, wrap_id by done.
    rewrite (left_id_L ∅ (∪)). by destruct b.
  - inv Hg. destruct H2 as (Hm & _).
    destruct m as [|m]; [|done]. simplify_eq/=.
    apply IH in H4; [|apply wrap_in_range]. rewrite H4. simpl.
    rewrite wrap_add_wrap. f_equal. f_equal; [f_equal; lia|].
    apply set_eq. intros k. rewrite !elem_of_union, elem_of_singleton. tauto.
Qed.

(** X18: with one bucket the partitioner returns a single bucket that holds
    the ordinals of all records and the 64-bit sum of their weights. *)
Theorem binpack_single_bucket sort_Slice metas w :
  SliceContract sort_Slice →
  ∃ w',
    binpack sort_Slice metas 1 w =
      (w', Ok [mkFileBucket (Int64.wrap (sum_Size metas))
                 (list_to_set (LineNumber <$> metas))]).
Proof.
  intros Hsort.
  destruct (binpack_ok sort_Slice metas 1 w ltac:(lia)) as (buckets & Hrun & Hg & _).
  destruct (Hsort metas) as [Hperm _].
  apply greedy_single_bucket in Hg; [|by vm_compute].
  eexists. rewrite Hrun, Hg. f_equal. f_equal. simpl. f_equal. f_equal.
  - by rewrite (sum_Size_perm _ _ Hperm).
  - rewrite (right_id_L ∅ (∪)). apply set_eq. intros k.
    rewrite !elem_of_list_to_set. by rewrite Hperm.
Qed.

Lemma binpack_single_bucket_witness :
  SliceContract (insertionSort_func less) ∧
  ∃ w',
    binpack (insertionSort_func less) tied_metas 1 (mkWorld [] []) =
      (w', Ok [mkFileBucket (Int64.wrap (sum_Size tied_metas))
                 (list_to_set (LineNumber <$> tied_metas))]).
Proof.
  split; [apply insertionSort_contract|].
  exact (binpack_single_bucket (insertionSort_func less) tied_metas
           (mkWorld [] []) insertionSort_contract).
Defined.

(** ** The command: the warning it prints *)

Lemma write_loop_warnings lineToBucket rs :
  ∀ lineNum writers w k,
  0 < lineNum →
  (∀ ln bi, route lineToBucket (length writers) ln ≠ Fatal bi) →
  WarnLineNotFound k ∈ stdout (write_loop lineToBucket rs lineNum writers w).1 ↔
  WarnLineNotFound k ∈ stdout w ∨
  (lineNum ≤ k < lineNum + Z.of_nat (length rs) ∧
   route lineToBucket (length writers) k = Skip).
Proof.
  induction rs as [|rec rs IH]; intros lineNum writers w k Hpos Hroute.
  - simpl. split; [by left|]. intros [H|[H _]]; [done|lia].
  - cbn [write_loop]. destruct (Z.eqb_spec lineNum 0) as [?|_]; [lia|].
    rewrite length_cons, Nat2Z.inj_succ.
    destruct (route lineToBucket (length writers) lineNum) as [i| |bi] eqn:Hr.
    + unfold bind, when.
      assert (Hw : ∀ w0 : World,
                WarnLineNotFound k ∈
                  stdout (if lineNum `mod` 1000000 =? 0
                          then print (WriteLines lineNum) w0 else ret tt w0).1 ↔
                WarnLineNotFound k ∈ stdout w0).
      { intros w0. destruct (_ =? 0); [|done]. simpl.
        rewrite elem_of_app, list_elem_of_singleton.
        split; [intros [H|H]; done|by left]. }
      destruct (lineNum `mod` 1000000 =? 0) eqn:Hmod; simpl;
        (rewrite IH; [|lia|by rewrite length_WriteTo]);
        rewrite length_WriteTo; simpl;
        rewrite ?elem_of_app, ?list_elem_of_singleton;
        (split;
         [first [intros [[H|H]|[H1 H2]]; try done;
                   [by left|right; split; [lia|done]]
                |intros [H|[H1 H2]]; [by left|right; split; [lia|done]]]
         |intros [H|[H1 H2]];
          [first [by left; left|by left]
          |right; split; [|done];
           destruct (decide (k = lineNum)) as [->|Hne]; [congruence|lia]]]).
    + unfold bind, print. simpl. rewrite IH by (lia || done). simpl.
      rewrite elem_of_app, list_elem_of_singleton. split.
      * intros [[H|[= ->]]|[H1 H2]].
        -- by left.
        -- right. split; [lia|done].
        -- right. split; [lia|done].
      * intros [H|[H1 H2]]; [by left; left|].
        destruct (decide (k = lineNum)) as [->|Hne]; [left; by right|].
        right. split; [lia|done].
    + by apply Hroute in Hr.
Qed.

Lemma write_warnings hdr data prefix buckets w k :
  WarnLineNotFound k ∈ stdout (write (hdr :: data) prefix buckets w).1 ↔
  WarnLineNotFound k ∈ stdout w ∨
  (1 ≤ k ≤ Z.of_nat (length data) + 1 ∧
   route (lineToBucket buckets) (length buckets) k = Skip).
Proof.
  remember (hdr :: data) as input eqn:Hinput.
  unfold write, write_along, bind, print. simpl.
  rewrite create_all_ok. cbn [stdout created]. fold (lineToBucket buckets).
  subst input. rewrite write_loop_header.
  pose proof (write_loop_warnings (lineToBucket buckets) (hdr :: data) 1
                (Write hdr <$> replicate (length buckets) [])
                (mkWorld (stdout w ++ [WriteStart])
                   (created w ++ imap (λ i _, fileName prefix i) buckets))
                k ltac:(lia)) as Hwarn.
  rewrite length_fmap, length_replicate in Hwarn.
  specialize (Hwarn (route_lineToBucket buckets)).
  rewrite length_cons in Hwarn. cbn [stdout] in Hwarn.
  rewrite elem_of_app, list_elem_of_singleton in Hwarn.
  destruct (write_loop _ _ _ _ _) as [w4 [files|e]]; unfold ret;
    cbn [fst stdout] in *;
    rewrite ?elem_of_app, ?list_elem_of_singleton, Hwarn.
  - split.
    + intros [[[H|H]|[H1 H2]]|H]; try done; [by left|right; split; [lia|done]].
    + intros [H|[H1 H2]]; [by left; left; left|left; right; split; [lia|done]].
  - split.
    + intros [[H|H]|[H1 H2]]; try done; [by left|right; split; [lia|done]].
    + intros [H|[H1 H2]]; [by left; left|right; split; [lia|done]].
Qed.

Lemma summary_no_warning buckets k : WarnLineNotFound k ∉ summary buckets.
Proof.
  unfold summary. intros H. apply list_elem_of_lookup in H as [i Hi].
  rewrite list_lookup_imap in Hi. by destruct (buckets !! i).
Qed.

(** X19: on a source with a header and N data records of three fields each,
    and with B >= 1, the command returns and prints exactly one warning of a
    line not found in any bucket, for line N + 1: the read loop of the write
    pass counts the header as line 1, so that the record it reads last is
    looked up under a number no bucket holds. *)
Theorem split_warns_once sort_Slice hdr data bucketsN prefix :
  SliceContract sort_Slice →
  Forall (λ rec : record, is_Some (rec !! 2%nat)) data →
  1 ≤ bucketsN →
  ∃ w files,
    run (splitCmd sort_Slice (hdr :: data) bucketsN prefix) = (w, Ok files) ∧
    ∀ k, WarnLineNotFound k ∈ stdout w ↔ k = Z.of_nat (length data) + 1.
Proof.
  intros Hsort Hall HB.
  pose proof (scan_ok hdr data (mkWorld [] []) Hall) as Hscan.
  destruct (binpack_members sort_Slice (imap meta_of data) bucketsN
              (mkWorld ([] ++ scan_stdout (length data)) [])
              Hsort (meta_of_NoDup data) HB)
    as (w2 & buckets & Hbin & _ & Hdisj & Hcover).
  destruct (binpack_ok sort_Slice (imap meta_of data) bucketsN
              (mkWorld ([] ++ scan_stdout (length data)) []) HB)
    as (buckets' & Hbin' & _).
  rewrite Hbin in Hbin'. injection Hbin' as Hw2 <-.
  assert (Hpre : ∀ k, WarnLineNotFound k ∉ stdout w2).
  { intros k Hin. rewrite Hw2 in Hin. cbn [stdout] in Hin.
    apply elem_of_cons in Hin as [Hin|Hin]; [done|].
    apply elem_of_app in Hin as [Hin|Hin].
    - apply elem_of_app in Hin as [Hin|Hin];
        [by apply list_elem_of_fmap in Hin as (? & ? & _)
        |by apply list_elem_of_singleton in Hin].
    - apply elem_of_cons in Hin as [Hin|Hin]; [done|].
      apply elem_of_cons in Hin as [Hin|Hin]; [done|].
      by apply summary_no_warning in Hin. }
  assert (Hskip : ∀ k, route (lineToBucket buckets) (length buckets) k = Skip ↔
                       ¬ (1 ≤ k ≤ Z.of_nat (length data))).
  { intros k.
    assert (Hmem : (∃ i, member_at buckets k i) ↔ 1 ≤ k ≤ Z.of_nat (length data)).
    { rewrite Hcover, meta_of_ordinals, list_elem_of_fmap. split.
      - intros (i & -> & Hi). apply elem_of_seq in Hi. lia.
      - intros Hk. exists (Z.to_nat (k - 1)). split; [lia|].
        apply elem_of_seq. lia. }
    split.
    - intros Hr Hk. apply Hmem in Hk as [i Hi].
      rewrite (route_member buckets k i Hdisj Hi) in Hr. done.
    - intros Hk. apply route_no_member. intros i Hi. apply Hk, Hmem. eauto. }
  destruct (write_returns (hdr :: data) prefix buckets w2)
    as (w3 & files & Hwrite & _).
  pose proof (λ k, write_warnings hdr data prefix buckets w2 k) as Hwarn.
  rewrite Hwrite in Hwarn. cbn [fst] in Hwarn.
  unfold run, splitCmd.
  rewrite (bind_ok _ _ _ _ _ Hscan), (bind_ok _ _ _ _ _ Hbin),
    (bind_ok _ _ _ _ _ Hwrite).
  unfold bind, print, ret. cbn [stdout created].
  eexists _, files. split; [done|]. intros k. cbn [stdout].
  rewrite elem_of_app, list_elem_of_singleton, Hwarn, Hskip.
  split.
  - intros [[H|[Hk Hout]]|H]; try done; [by apply Hpre in H|lia].
  - intros ->. left; right. split; lia.
Qed.

Lemma split_warns_once_witness :
  SliceContract (insertionSort_func less) ∧
  Forall (λ rec : record, is_Some (rec !! 2%nat)) [row1; row2] ∧
  1 ≤ 2 ∧
  ∃ w files,
    run (splitCmd (insertionSort_func less) (header :: [row1; row2]) 2 "out_") =
      (w, Ok files) ∧
    ∀ k, WarnLineNotFound k ∈ stdout w ↔ k = Z.of_nat (length [row1; row2]) + 1.
Proof.
  assert (H1 : Forall (λ rec : record, is_Some (rec !! 2%nat)) [row1; row2]).
  { repeat constructor; by eexists. }
  split; [apply insertionSort_contract|]. split; [exact H1|]. split; [lia|].
  apply (split_warns_once (insertionSort_func less) header [row1; row2] 2 "out_"
           insertionSort_contract H1).
  lia.
Defined.
